(** * MedMap-Generator: the mindmap construction of [app.py]

    A shallow embedding of the part of [generate_mindmap_data] that turns
    the summary text into the mindmap tree (app.py, lines 93-160): the
    sentence splitter, the keyword-driven topic selection and the tree
    assembly with its used-set.

    Modelling choices.
    - A Python [str] is a [string]; a character is a code point below 256
      (Latin-1), so [str.isspace], [\s] and [str.lower] are the restrictions
      of the Unicode tables to that range.
    - A Python [list] is a [list]; [append] adds at the end.
    - The Python [set] [used_sentences] is only ever touched through
      [add], [in] and [len]; the development is parametric in a set
      implementation offering these three (class [UsedSet]), with [gset]
      and a plain list as instances.
    - The dictionaries of the tree are records, one per shape: the root,
      a first-level node (with ["children"]) and a leaf (without).
    - Step 1 of the function (chunking and the call of the external
      summarisation model, lines 68-82) is outside the model: the
      embedding starts where [full_summary] is bound. *)

From Stdlib Require Import Ascii String.
From stdpp Require Import gmap strings list pretty.

Open Scope string_scope.
Open Scope list_scope.
Open Scope nat_scope.
Open Scope stdpp_scope.

(** ** Characters and strings *)

(** [str.isspace] / the regex class [\s] on code points below 256:
    TAB..CR, FS..US, SPACE, NEL and NBSP. *)
Definition is_space (c : ascii) : bool :=
  let n := nat_of_ascii c in
  (((9 <=? n) && (n <=? 13)) || ((28 <=? n) && (n <=? 32))
   || (n =? 133) || (n =? 160))%nat.

(** The character class [[.!?]] of the look-behind. *)
Definition is_break_punct (c : ascii) : bool :=
  match c with
  | "."%char | "!"%char | "?"%char => true
  | _ => false
  end.

(** [str.lower] on one code point below 256: A-Z and the upper-case
    letters of Latin-1 (U+00C0..U+00DE without the multiplication sign
    U+00D7) move up by 32, everything else is unchanged. *)
Definition lower_char (c : ascii) : ascii :=
  let n := nat_of_ascii c in
  if (((65 <=? n) && (n <=? 90))
      || ((192 <=? n) && (n <=? 222) && negb (n =? 215)))%nat
  then ascii_of_nat (n + 32)
  else c.

Fixpoint lower (s : string) : string :=
  match s with
  | "" => ""
  | String c s' => String (lower_char c) (lower s')
  end.

(** Truthiness of a string: [if s] holds for the non-empty ones. *)
Definition nonempty (s : string) : bool :=
  match s with
  | "" => false
  | String _ _ => true
  end.

Fixpoint lstrip (s : string) : string :=
  match s with
  | "" => ""
  | String c s' => if is_space c then lstrip s' else s
  end.

Fixpoint rstrip (s : string) : string :=
  match s with
  | "" => ""
  | String c s' =>
      let r := rstrip s' in
      if is_space c && negb (nonempty r) then "" else String c r
  end.

(** [s.strip()] *)
Definition strip (s : string) : string := rstrip (lstrip s).

Fixpoint starts_with (k s : string) : bool :=
  match k, s with
  | "", _ => true
  | String _ _, "" => false
  | String a k', String b s' => bool_decide (a = b) && starts_with k' s'
  end.

(** [k in s] for strings: [k] occurs in [s] as a contiguous substring. *)
Fixpoint contains (k s : string) : bool :=
  starts_with k s ||
  match s with
  | "" => false
  | String _ s' => contains k s'
  end.

(** ** Sentence splitter (line 93) *)

(** [re.split(r'(?<=[.!?])\s+', text)], scanning left to right.
    [lookbehind] tells whether the character before the current position
    is in [[.!?]]; [piece] is the text since the end of the last match.
    The pattern matches at a whitespace character preceded by such a
    punctuation mark; [\s+] is greedy, so the match covers the whole
    whitespace run ([ws_run]) and the search resumes behind it, where the
    preceding character is a whitespace and the look-behind fails. *)
Fixpoint re_split_from (lookbehind : bool) (piece rest : string)
    {struct rest} : list string :=
  match rest with
  | "" => [piece]
  | String c rest' =>
      if lookbehind && is_space c then
        piece ::
          (fix ws_run (l : string) : list string :=
             match l with
             | "" => [""]
             | String d l' =>
                 if is_space d then ws_run l' else re_split_from false "" l
             end) rest'
      else re_split_from (is_break_punct c) (piece +:+ String c "") rest'
  end.

Definition re_split (text : string) : list string :=
  re_split_from false "" text.

(** [[s.strip() for s in re.split(...) if s.strip()]] *)
Definition split_sentences (full_summary : string) : list string :=
  strip <$> filter (λ s, nonempty (strip s) = true) (re_split full_summary).

(** ** Topic selection (lines 96-106) *)

Definition medical_keywords : list string :=
  ["disease"; "syndrome"; "therapy"; "treatment"; "diagnosis"; "patient";
   "cell"; "organ"; "system"; "medicine"; "drug"; "condition"; "pathology";
   "physiology"].

(** [sentence not in main_topics] *)
Definition not_in (s : string) (l : list string) : bool :=
  bool_decide (s ∉ l).

(** The inner [for keyword in medical_keywords] loop for one sentence:
    the first keyword for which the test succeeds appends the sentence
    and leaves the loop ([break]). *)
Fixpoint keyword_loop (sentence : string) (keywords : list string)
    (main_topics : list string) : list string :=
  match keywords with
  | [] => main_topics
  | keyword :: keywords' =>
      if contains keyword (lower sentence) && not_in sentence main_topics
      then main_topics ++ [sentence]
      else keyword_loop sentence keywords' main_topics
  end.

(** The outer [for sentence in sentences] loop. *)
Fixpoint sentence_loop (keywords sentences main_topics : list string)
    : list string :=
  match sentences with
  | [] => main_topics
  | sentence :: sentences' =>
      sentence_loop keywords sentences'
        (keyword_loop sentence keywords main_topics)
  end.

(** Lines 97-106, with the keyword list as a parameter: the scan, then the
    fallback [sentences[:min(3, len(sentences))]] when nothing matched. *)
Definition select_main_topics (keywords sentences : list string)
    : list string :=
  let main_topics := sentence_loop keywords sentences [] in
  match main_topics, sentences with
  | [], _ :: _ => take (min 3 (length sentences)) sentences
  | _, _ => main_topics
  end.

(** ** The tree (lines 113-117, 123-127, 136-139, 146-150) *)

(** A leaf dictionary [{"id": ..., "text": ...}]. *)
Record Leaf := mkLeaf { leaf_id : string; leaf_text : string }.

(** A first-level dictionary [{"id": ..., "text": ..., "children": [...]}]:
    a topic node or the [node-other] node. *)
Record Node := mkNode {
  node_id : string;
  node_text : string;
  node_children : list Leaf
}.

(** The root dictionary. *)
Record Mindmap := mkMindmap {
  mm_id : string;
  mm_text : string;
  mm_children : list Node
}.

(** [f"node-{i}"], [f"node-{i}-sub-{j}"] and [f"node-other-sub-{k}"] *)
Definition topic_id (i : nat) : string := "node-" +:+ pretty i.
Definition sub_id (i j : nat) : string :=
  "node-" +:+ pretty i +:+ "-sub-" +:+ pretty j.
Definition other_sub_id (k : nat) : string := "node-other-sub-" +:+ pretty k.

(** ** The used-set *)

(** What the code asks of [used_sentences]: [set()], [add], [in] and [len].
    An implementation is lawful when it represents a finite set of strings
    ([used_repr]) on which the four operations are the set operations. *)
Class UsedSet (U : Type) := {
  used_empty : U;
  used_add : string → U → U;
  used_mem : string → U → bool;
  used_len : U → nat;
  used_repr : U → gset string;
  used_repr_empty : used_repr used_empty = ∅;
  used_repr_add s u : used_repr (used_add s u) = {[s]} ∪ used_repr u;
  used_mem_spec s u : used_mem s u = bool_decide (s ∈ used_repr u);
  used_len_spec u : used_len u = size (used_repr u)
}.

(** ** Tree assembly (lines 113-160) *)

Section assembler.
Context {U : Type} `{!UsedSet U}.

(** Lines 134-141: the scan of all sentences for the sub-nodes of topic
    [i]. The state is the children list of the node, the used-set and
    the counter [sub_nodes_added]. *)
Fixpoint sub_loop (i : nat) (sentences : list string)
    (children : list Leaf) (used : U) (sub_nodes_added : nat)
    : list Leaf * U :=
  match sentences with
  | [] => (children, used)
  | sub_sentence :: sentences' =>
      if negb (used_mem sub_sentence used) && (sub_nodes_added <? 3)%nat then
        sub_loop i sentences'
          (children ++ [mkLeaf (sub_id i sub_nodes_added) sub_sentence])
          (used_add sub_sentence used)
          (S sub_nodes_added)
      else sub_loop i sentences' children used sub_nodes_added
  end.

(** Lines 122-141: [for i, topic_sentence in enumerate(main_topics)].
    The dictionary appended to the root's children at line 128 is the
    object whose ["children"] list lines 136-139 fill afterwards, so the
    entry of the root carries the children of the finished scan. *)
Fixpoint topic_loop (sentences : list string) (i : nat)
    (main_topics : list string) (root_children : list Node) (used : U)
    : list Node * U :=
  match main_topics with
  | [] => (root_children, used)
  | topic_sentence :: main_topics' =>
      let '(children, used') :=
        sub_loop i sentences [] (used_add topic_sentence used) 0 in
      topic_loop sentences (S i) main_topics'
        (root_children ++ [mkNode (topic_id i) topic_sentence children])
        used'
  end.

(** Lines 151-156: the children of [node-other]; the id counts the
    children appended so far, the used-set is only read. *)
Fixpoint other_loop (sentences : list string) (children : list Leaf)
    (used : U) : list Leaf :=
  match sentences with
  | [] => children
  | sub_sentence :: sentences' =>
      if negb (used_mem sub_sentence used) then
        other_loop sentences'
          (children ++
             [mkLeaf (other_sub_id (length children)) sub_sentence])
          used
      else other_loop sentences' children used
  end.

(** Lines 145-158: the root's children after the optional [node-other]. *)
Definition add_other_details (sentences : list string)
    (root_children : list Node) (used : U) : list Node :=
  if (used_len used <? length sentences)%nat then
    let other_children := other_loop sentences [] used in
    match other_children with
    | [] => root_children
    | _ :: _ =>
        root_children ++ [mkNode "node-other" "Other Details" other_children]
    end
  else root_children.

(** Lines 113-160: the tree for given sentences and topics. *)
Definition build_mindmap (sentences main_topics : list string) : Mindmap :=
  let '(root_children, used) :=
    topic_loop sentences 0 main_topics [] used_empty in
  mkMindmap "root" "Medical Document Overview"
    (add_other_details sentences root_children used).

(** Lines 93-160 of [generate_mindmap_data], from [full_summary] on. *)
Definition generate_mindmap_data (full_summary : string) : Mindmap :=
  let sentences := split_sentences full_summary in
  let main_topics := select_main_topics medical_keywords sentences in
  build_mindmap sentences main_topics.

(** The used-set when all topics are processed (line 145). *)
Definition used_after_topics (sentences main_topics : list string) : U :=
  (topic_loop sentences 0 main_topics [] used_empty).2.

Definition topic_nodes (sentences main_topics : list string) : list Node :=
  (topic_loop sentences 0 main_topics [] used_empty).1.
End assembler.

Arguments build_mindmap U {_} _ _.
Arguments generate_mindmap_data U {_} _.
Arguments used_after_topics U {_} _ _.
Arguments topic_nodes U {_} _ _.

(** Two implementations of the used-set: stdpp's [gset], and a list that
    keeps every added string and counts the distinct ones. *)
#[global, refine] Instance gset_UsedSet : UsedSet (gset string) := {|
  used_empty := ∅;
  used_add s u := {[s]} ∪ u;
  used_mem s u := bool_decide (s ∈ u);
  used_len u := size u;
  used_repr u := u
|}.
Proof. all: done. Defined.

#[global, refine] Instance list_UsedSet : UsedSet (list string) := {|
  used_empty := [];
  used_add s u := s :: u;
  used_mem s u := bool_decide (s ∈ u);
  used_len u := length (remove_dups u);
  used_repr u := list_to_set u
|}.
Proof.
  - done.
  - done.
  - intros s u. apply bool_decide_ext. by rewrite elem_of_list_to_set.
  - intros u. rewrite <- (size_list_to_set (C:=gset string)).
    + f_equal. apply set_eq. intros x.
      by rewrite !elem_of_list_to_set, elem_of_remove_dups.
    + apply NoDup_remove_dups.
Defined.

Definition example_summary : string :=
  "Patient has a rare syndrome. It affects the liver. Treatment is ongoing. Weather was sunny. Final note here.".

(** ** The splitter as the specification words it *)

Definition starts_with_space (s : string) : bool :=
  match s with
  | "" => false
  | String c _ => is_space c
  end.

(** The text is broken after every [.], [!] or [?] that is followed by
    whitespace. The pieces of [c s'] are those of [s'] with [c] in front of
    the first one, unless [c] is such a mark followed by whitespace: then
    [c] closes a piece of its own (it stays with the preceding text and is
    not repeated), and the whitespace run behind it, which is the leading
    whitespace of the first piece of [s'], is consumed as one boundary. *)
Fixpoint spec_break (s : string) : list string :=
  match s with
  | "" => [""]
  | String c s' =>
      match spec_break s' with
      | [] => [String c ""]
      | p :: ps =>
          if is_break_punct c && starts_with_space s'
          then String c "" :: lstrip p :: ps
          else String c p :: ps
      end
  end.

(** Whitespace in front of a sequence of characters is dropped. *)
Fixpoint drop_spaces (l : list ascii) : list ascii :=
  match l with
  | [] => []
  | c :: l' => if is_space c then drop_spaces l' else l
  end.

(** A piece trimmed of its surrounding whitespace: the whitespace in front
    is dropped, and so is, reading the piece backwards, the whitespace at
    its end. *)
Definition spec_trim (s : string) : string :=
  string_of_list_ascii
    (rev (drop_spaces (rev (drop_spaces (list_ascii_of_string s))))).

(** The last character of the string is whitespace. *)
Fixpoint ends_with_space (s : string) : bool :=
  match s with
  | "" => false
  | String c "" => is_space c
  | String _ s' => ends_with_space s'
  end.

(** Trim every piece, drop the empty ones, keep the order. *)
Definition spec_split_sentences (text : string) : list string :=
  filter (λ s, s ≠ "") (spec_trim <$> spec_break text).

(** ** Auxiliary notions used in the statements *)

(** A text made of whitespace only (the empty text included). *)
Fixpoint all_space (s : string) : bool :=
  match s with
  | "" => true
  | String c s' => is_space c && all_space s'
  end.

(** Gluing a piece in front of the first piece of a split, and trimming
    the first piece on the left. *)
Definition attach (piece : string) (l : list string) : list string :=
  match l with
  | [] => [piece]
  | p :: ps => (piece +:+ p) :: ps
  end.

Definition lstrip_head (l : list string) : list string :=
  match l with
  | [] => []
  | p :: ps => lstrip p :: ps
  end.

(** Does some keyword occur in the lower-cased sentence? *)
Definition matches_any (keywords : list string) (sentence : string) : bool :=
  existsb (λ keyword, contains keyword (lower sentence)) keywords.

(** What the specification asks of the children of topic node [i]. *)
Definition sub_nodes_ok (i : nat) (sentences : list string) (n : Node) : Prop :=
  length (node_children n) ≤ 3 ∧
  leaf_id <$> node_children n = sub_id i <$> seq 0 (length (node_children n)) ∧
  (leaf_text <$> node_children n) `sublist_of` sentences.

(** The optional last child of the root, for the sentences left unused. *)
Definition other_details (remaining : list string) : list Node :=
  match remaining with
  | [] => []
  | _ :: _ =>
      [mkNode "node-other" "Other Details"
         (imap (λ k s, mkLeaf (other_sub_id k) s) remaining)]
  end.

(** The pairs (id, text) of the nodes that carry a sentence: the topic
    nodes and all leaves, those of [node-other] included. *)
Definition sentence_entries (m : Mindmap) : list (string * string) :=
  n ← mm_children m;
  (if decide (node_id n = "node-other") then []
   else [(node_id n, node_text n)])
  ++ ((λ lf, (leaf_id lf, leaf_text lf)) <$> node_children n).

(** The texts of all sub-nodes of a list of first-level nodes. *)
Definition sub_texts (nodes : list Node) : list string :=
  n ← nodes; leaf_text <$> node_children n.

(** ** Notions for the splitter's properties *)

(** The characters of a string that are not whitespace, in order. *)
Fixpoint non_space (s : string) : string :=
  match s with
  | "" => ""
  | String c s' => if is_space c then non_space s' else String c (non_space s')
  end.

(** [''.join(l)] *)
Fixpoint concat_str (l : list string) : string :=
  match l with
  | [] => ""
  | s :: l' => s +:+ concat_str l'
  end.

(** No [.], [!] or [?] of the string is directly followed by whitespace. *)
Fixpoint no_break (s : string) : bool :=
  match s with
  | "" => true
  | String c s' => negb (is_break_punct c && starts_with_space s') && no_break s'
  end.

(** ** Upload whitelist (lines 26-30) *)

Definition ALLOWED_EXTENSIONS : gset string := {[ "txt"; "pdf"; "docx" ]}.

(** [s.rsplit(sep, 1)] for a one-character separator: the string is cut
    at the last occurrence of [sep]; without an occurrence the result is
    the one-element list [[s]]. *)
Fixpoint rsplit1 (sep : ascii) (s : string) : list string :=
  match s with
  | "" => [""]
  | String c s' =>
      match rsplit1 sep s' with
      | [a; b] => [String c a; b]
      | [a] => if bool_decide (c = sep) then [""; a] else [String c a]
      | l => l
      end
  end.

(** [allowed_file]: ['.' in filename and
    filename.rsplit('.', 1)[1].lower() in ALLOWED_EXTENSIONS]. The index
    [[1]] raises [IndexError] on a one-element list; [None] stands for
    that. *)
Definition allowed_file (filename : string) : option bool :=
  if contains "." filename then
    ext ← rsplit1 "." filename !! 1;
    Some (bool_decide (lower ext ∈ ALLOWED_EXTENSIONS))
  else Some false.

(** ** Summarisation step (lines 68-82) *)

(** The outcome of code that may raise: a value, or the message of the
    exception. *)
Inductive result (A : Type) : Type :=
  | Ok (a : A)
  | Raise (e : string).
Arguments Ok {A} a.
Arguments Raise {A} e.

Definition max_chunk_length : nat := 1024.

Fixpoint str_take (n : nat) (s : string) : string :=
  match n, s with
  | S n', String c s' => String c (str_take n' s')
  | _, _ => ""
  end.

Fixpoint str_drop (n : nat) (s : string) : string :=
  match n, s with
  | S n', String _ s' => str_drop n' s'
  | _, _ => s
  end.

(** [s[i:j]] for [0 <= i <= j]; the slice is cut at the end of [s]. *)
Definition slice (i j : nat) (s : string) : string :=
  str_take (j - i) (str_drop i s).

(** [range(0, stop, step)] for a positive [step]: the multiples of [step]
    below [stop]; there are [ceil(stop / step)] of them. *)
Definition range_step (stop step : nat) : list nat :=
  (λ k, k * step) <$> seq 0 ((stop + step - 1) / step).

(** [[text[i:i+n] for i in range(0, len(text), n)]] *)
Definition chunks_of (n : nat) (text : string) : list string :=
  (λ i, slice i (i + n) text) <$> range_step (String.length text) n.

Definition chunks (text : string) : list string :=
  chunks_of max_chunk_length text.

(** [sep.join(l)] *)
Fixpoint join (sep : string) (l : list string) : string :=
  match l with
  | [] => ""
  | [x] => x
  | x :: l' => x +:+ sep +:+ join sep l'
  end.

Section summarisation.
Context {U : Type} `{!UsedSet U}.

(** The external model behind
    [summarizer(chunk, max_length=150, min_length=30,
    do_sample=False)[0]['summary_text']]: the summary, or an exception. *)
Variable summarizer : string → result string.

(** Lines 73-80: the loop over the chunks; blank chunks are skipped, an
    exception of the model ends the loop. *)
Fixpoint summarize_chunks (chunks : list string) (summaries : list string)
    : result (list string) :=
  match chunks with
  | [] => Ok summaries
  | chunk :: chunks' =>
      if nonempty (strip chunk) then
        match summarizer chunk with
        | Ok summary => summarize_chunks chunks' (summaries ++ [summary])
        | Raise e => Raise e
        end
      else summarize_chunks chunks' summaries
  end.

(** Lines 82: [full_summary = " ".join(summaries)] *)
Definition full_summary_of (text : string) : result string :=
  match summarize_chunks (chunks text) [] with
  | Ok summaries => Ok (join " " summaries)
  | Raise e => Raise e
  end.

(** The whole function [generate_mindmap_data(text)], lines 67-160. *)
Definition generate_mindmap_data_of_text (text : string) : result Mindmap :=
  match full_summary_of text with
  | Ok full_summary => Ok (generate_mindmap_data U full_summary)
  | Raise e => Raise e
  end.
End summarisation.

Arguments generate_mindmap_data_of_text U {_} _ _.

(** ** Text extraction and the upload endpoint (lines 20-23, 33-64, 165-202) *)

Definition UPLOAD_FOLDER : string := "uploads".

Fixpoint ends_with_slash (s : string) : bool :=
  match s with
  | "" => false
  | String c "" => bool_decide (c = "/"%char)
  | String _ s' => ends_with_slash s'
  end.

(** [os.path.join(a, b)] of [posixpath]: an absolute [b] replaces [a];
    otherwise [b] is appended, behind a [/] unless [a] is empty or ends
    with one. *)
Definition os_path_join (a b : string) : string :=
  if starts_with "/" b then b
  else if negb (nonempty a) || ends_with_slash a then a +:+ b
  else a +:+ "/" +:+ b.

(** The JSON body of a response: [{"error": ...}] or
    [{"message": ..., "mindmap": ...}]. *)
Inductive Body : Type :=
  | ErrorBody (error : string)
  | MindmapBody (message : string) (mindmap : Mindmap).

Record Response := mkResponse { body : Body; status : nat }.

(** [app.config['MAX_CONTENT_LENGTH']], line 24. *)
Definition MAX_CONTENT_LENGTH : N := (16 * 1024 * 1024)%N.

(** A request as the endpoint sees it: the length of its body as declared
    by [Content-Length], and the filename of the part [document] of its
    files, [None] when that part is missing. *)
Record Request := mkRequest {
  content_length : N;
  document : option string
}.

(** [str(e)] for the [RequestEntityTooLarge] that reading the body of a
    request longer than [MAX_CONTENT_LENGTH] raises. *)
Definition request_entity_too_large : string :=
  "413 Request Entity Too Large: The data value transmitted exceeds the capacity limit.".

(** The answer to an upload whose name is refused (line 202). *)
Definition not_allowed_response : Response :=
  mkResponse (ErrorBody "File type not allowed or no file selected") 400.

Section endpoint.
Context {U : Type} `{!UsedSet U}.

(** The environment of a request:
    - [save_error path]: what [file.save(path)] does, [None] when it
      succeeds and [Some e] when it raises [e];
    - [read_text path]: the outcome of
      [open(path, 'r', encoding='utf-8').read()] after the file is saved;
    - [summarizer]: the model. *)
Variable save_error : string → option string.
Variable read_text : string → result string.
Variable summarizer : string → result string.

(** [extract_text_from_file], lines 33-64. *)
Definition extract_text_from_file (filepath file_extension : string)
    : result string :=
  if bool_decide (file_extension = "txt") then read_text filepath
  else if bool_decide (file_extension = "pdf") then
    Ok "PDF text extraction not implemented in this demo. Please use .txt"
  else if bool_decide (file_extension = "docx") then
    Ok "DOCX text extraction not implemented in this demo. Please use .txt"
  else Ok "".

(** The [try] block of the endpoint, lines 181-200: an exception of the
    extraction or of [generate_mindmap_data] is answered with status 500
    (the entry written to the application log is not modelled). *)
Definition process_upload (filepath file_extension : string) : Response :=
  match extract_text_from_file filepath file_extension with
  | Raise e =>
      mkResponse (ErrorBody ("An error occurred during processing: " +:+ e))
        500
  | Ok text_content =>
      if negb (nonempty text_content)
         || contains "not implemented" text_content
      then mkResponse (ErrorBody text_content) 400
      else if String.length text_content <? 50 then
        mkResponse
          (ErrorBody "Document content is too short for meaningful analysis.")
          400
      else
        match generate_mindmap_data_of_text U summarizer text_content with
        | Ok mindmap_data =>
            mkResponse
              (MindmapBody "Mindmap generated successfully" mindmap_data) 200
        | Raise e =>
            mkResponse
              (ErrorBody ("An error occurred during processing: " +:+ e)) 500
        end
  end.

(** Lines 167-202 of [upload_and_generate], once [request.files] has
    been obtained. The argument is the filename of the part [document] of
    [request.files], [None] when the part is missing. The result is the
    list of paths given to [file.save] and the response, or the exception
    that leaves the function (those raised outside the [try] block).
    [if file] tests the filename of the upload for emptiness. *)
Definition handle_files (document : option string)
    : list string * result Response :=
  match document with
  | None =>
      ([], Ok (mkResponse (ErrorBody "No document part in the request") 400))
  | Some filename =>
      if bool_decide (filename = "") then
        ([], Ok (mkResponse (ErrorBody "No selected file") 400))
      else
        let not_allowed :=
          ([], Ok (mkResponse
                     (ErrorBody "File type not allowed or no file selected")
                     400)) in
        if nonempty filename then
          match allowed_file filename with
          | None => ([], Raise "list index out of range")
          | Some false => not_allowed
          | Some true =>
              match rsplit1 "." filename !! 1 with
              | None => ([], Raise "list index out of range")
              | Some ext =>
                  let file_extension := lower ext in
                  let filepath := os_path_join UPLOAD_FOLDER filename in
                  match save_error filepath with
                  | Some e => ([filepath], Raise e)
                  | None =>
                      ([filepath], Ok (process_upload filepath file_extension))
                  end
              end
          end
        else not_allowed
  end.
(** [upload_and_generate], lines 165-202. The first access to
    [request.files] (line 167) parses the body of the request; with
    [MAX_CONTENT_LENGTH] configured it raises [RequestEntityTooLarge] for a
    body longer than the limit. That access is outside the [try] block, so
    the exception leaves the function before anything is saved. *)
Definition upload_and_generate (request : Request)
    : list string * result Response :=
  if (MAX_CONTENT_LENGTH <? content_length request)%N then
    ([], Raise request_entity_too_large)
  else handle_files (document request).
End endpoint.

Arguments process_upload U {_} _ _ _ _.
Arguments handle_files U {_} _ _ _ _.
Arguments upload_and_generate U {_} _ _ _ _.

(** ** Notions for the identifiers *)

(** All ids of a tree: the root's, then per first-level node its id and
    the ids of its leaves. *)
Definition all_ids (m : Mindmap) : list string :=
  mm_id m :: (n ← mm_children m; node_id n :: (leaf_id <$> node_children n)).

Definition is_digit (c : ascii) : bool :=
  let n := nat_of_ascii c in (48 <=? n) && (n <=? 57).

Fixpoint all_digits (s : string) : bool :=
  match s with
  | "" => true
  | String c s' => is_digit c && all_digits s'
  end.

(** The leading decimal digits of a string. *)
Fixpoint digits_prefix (s : string) : string :=
  match s with
  | "" => ""
  | String c s' => if is_digit c then String c (digits_prefix s') else ""
  end.

(** The digits behind the five characters [node-] of an id: the index of
    the topic node an id belongs to, empty for [node-other] and its
    leaves. *)
Definition id_owner (id : string) : string := digits_prefix (str_drop 5 id).

(** The shape of a first-level node: topic node [i] with its sub-nodes, or
    [node-other] with its leaves. *)
Definition node_shape (t i : nat) (n : Node) : Prop :=
  (i < t ∧ node_id n = topic_id i ∧
   leaf_id <$> node_children n
   = sub_id i <$> seq 0 (length (node_children n))) ∨
  (i = t ∧ node_id n = "node-other" ∧
   leaf_id <$> node_children n
   = other_sub_id <$> seq 0 (length (node_children n))).

(** All sentences are in the used-set. *)
Definition exhausted {U : Type} `{!UsedSet U} (sentences : list string)
    (used : U) : Prop :=
  ∀ s, s ∈ sentences → s ∈ used_repr used.

(** The last character of the string is [.], [!] or [?]. *)
Fixpoint ends_with_break (s : string) : bool :=
  match s with
  | "" => false
  | String c "" => is_break_punct c
  | String _ s' => ends_with_break s'
  end.

(** * Properties *)

(** ** Strings *)

Lemma append_cons (c : ascii) (s t : string) :
  String c s +:+ t = String c (s +:+ t).
Proof. reflexivity. Qed.

Lemma append_nil_r (s : string) : s +:+ "" = s.
Proof.
  induction s as [|c s IH]; [done | by rewrite append_cons, IH].
Qed.

Lemma append_assoc (a b c : string) : (a +:+ b) +:+ c = a +:+ (b +:+ c).
Proof.
  induction a as [|x a IH]; [done | by rewrite !append_cons, IH].
Qed.

Lemma nonempty_true (s : string) : nonempty s = true ↔ s ≠ "".
Proof. destruct s; simpl; split; done. Qed.

Lemma break_punct_not_space (c : ascii) :
  is_break_punct c = true → is_space c = false.
Proof.
  destruct c as [[] [] [] [] [] [] [] []]; simpl; try discriminate; done.
Qed.

Lemma space_not_break_punct (c : ascii) :
  is_space c = true → is_break_punct c = false.
Proof.
  intros Hs. destruct (is_break_punct c) eqn:Hp; [|done].
  apply break_punct_not_space in Hp. congruence.
Qed.

Lemma lstrip_length (s : string) :
  (String.length (lstrip s) ≤ String.length s)%nat.
Proof.
  induction s as [|c s IH]; simpl; [lia|].
  destruct (is_space c); simpl; lia.
Qed.

Lemma lstrip_no_space (s : string) : starts_with_space (lstrip s) = false.
Proof.
  induction s as [|c s IH]; simpl; [done|].
  destruct (is_space c) eqn:Hc; [done | simpl; by rewrite Hc].
Qed.

Lemma lstrip_id (s : string) : starts_with_space s = false → lstrip s = s.
Proof. destruct s as [|c s]; simpl; [done | by intros ->]. Qed.

Lemma rstrip_no_space (s : string) :
  starts_with_space s = false → starts_with_space (rstrip s) = false.
Proof.
  destruct s as [|c s]; simpl; [done|]. intros Hc. rewrite Hc. simpl. done.
Qed.

Lemma rstrip_idemp (s : string) : rstrip (rstrip s) = rstrip s.
Proof.
  induction s as [|c s IH]; simpl; [done|].
  destruct (is_space c && negb (nonempty (rstrip s))) eqn:E; simpl; [done|].
  by rewrite IH, E.
Qed.

Lemma strip_idemp (s : string) : strip (strip s) = strip s.
Proof.
  unfold strip.
  rewrite (lstrip_id (rstrip (lstrip s))).
  - apply rstrip_idemp.
  - apply rstrip_no_space, lstrip_no_space.
Qed.

Lemma lstrip_all_space (s : string) : all_space s = true → lstrip s = "".
Proof.
  induction s as [|c s IH]; simpl; [done|].
  intros [Hc Hs]%andb_true_iff. rewrite Hc. auto.
Qed.

(** ** The splitter *)

(** The equation of a match: once the look-behind holds at a whitespace
    character, the piece is closed and the scan resumes behind the run. *)
Lemma re_split_from_match (piece : string) (c : ascii) (rest : string) :
  is_space c = true →
  re_split_from true piece (String c rest)
  = piece :: re_split_from false "" (lstrip rest).
Proof.
  intros Hc. simpl. rewrite Hc. f_equal.
  induction rest as [|d rest IH]; simpl; [done|].
  destruct (is_space d); [exact IH | done].
Qed.

Lemma re_split_from_step (lb : bool) (piece : string) (c : ascii)
    (rest : string) :
  lb && is_space c = false →
  re_split_from lb piece (String c rest)
  = re_split_from (is_break_punct c) (piece +:+ String c "") rest.
Proof. intros E. simpl. by rewrite E. Qed.

Lemma spec_break_cons (s : string) : ∃ p ps, spec_break s = p :: ps.
Proof.
  destruct s as [|c s]; simpl; [by eexists _, _|].
  destruct (spec_break s) as [|p ps]; [by eexists _, _|].
  destruct (is_break_punct c && starts_with_space s); by eexists _, _.
Qed.

Lemma spec_break_lstrip (s : string) :
  lstrip_head (spec_break s) = spec_break (lstrip s).
Proof.
  induction s as [|c s IH]; [done|].
  destruct (is_space c) eqn:Hc.
  - replace (lstrip (String c s)) with (lstrip s) by (simpl; by rewrite Hc).
    rewrite <- IH. simpl.
    destruct (spec_break_cons s) as (p & ps & ->).
    rewrite (space_not_break_punct c Hc). simpl. by rewrite Hc.
  - replace (lstrip (String c s)) with (String c s) by (simpl; by rewrite Hc).
    simpl. destruct (spec_break_cons s) as (p & ps & ->).
    destruct (is_break_punct c && starts_with_space s); simpl; by rewrite Hc.
Qed.

Lemma re_split_from_spec (s : string) : ∀ lb piece,
  re_split_from lb piece s
  = if lb && starts_with_space s
    then piece :: lstrip_head (spec_break s)
    else attach piece (spec_break s).
Proof.
  remember (String.length s) as n eqn:Hn. revert s Hn.
  induction n as [n IH] using lt_wf_ind. intros s Hn lb piece.
  destruct s as [|c s].
  { simpl. rewrite andb_false_r. simpl. by rewrite append_nil_r. }
  destruct (lb && is_space c) eqn:E.
  - apply andb_true_iff in E as [-> Hc].
    rewrite re_split_from_match by done.
    cbn [starts_with_space andb]. rewrite Hc. f_equal.
    rewrite (IH (String.length (lstrip s))) with (s := lstrip s);
      [|subst n; pose proof (lstrip_length s); simpl; lia | done].
    cbn [andb].
    rewrite <- spec_break_lstrip.
    change (spec_break (String c s))
      with (match spec_break s with
            | [] => [String c ""]
            | p :: ps =>
                if is_break_punct c && starts_with_space s
                then String c "" :: lstrip p :: ps
                else String c p :: ps
            end).
    destruct (spec_break_cons s) as (p & ps & ->).
    rewrite (space_not_break_punct c Hc). simpl. by rewrite Hc.
  - rewrite re_split_from_step by done.
    cbn [starts_with_space]. rewrite E.
    rewrite (IH (String.length s)) with (s := s);
      [|subst n; simpl; lia | done].
    simpl. destruct (spec_break_cons s) as (p & ps & ->).
    destruct (is_break_punct c && starts_with_space s); simpl.
    + done.
    + by rewrite append_assoc.
Qed.

Lemma re_split_spec (text : string) : re_split text = spec_break text.
Proof.
  unfold re_split. rewrite re_split_from_spec. simpl.
  destruct (spec_break_cons text) as (p & ps & ->). done.
Qed.

Lemma re_split_all_space (text : string) :
  all_space text = true → re_split text = [text].
Proof.
  intros Hs. unfold re_split.
  enough (∀ piece, re_split_from false piece text = [piece +:+ text]) as ->
    by done.
  induction text as [|c s IH]; intros piece; simpl.
  - by rewrite append_nil_r.
  - simpl in Hs. apply andb_true_iff in Hs as [Hc Hs].
    rewrite (space_not_break_punct c Hc), IH by done.
    by rewrite append_assoc.
Qed.

Lemma split_sentences_all_space (text : string) :
  all_space text = true → split_sentences text = [].
Proof.
  intros Hs. unfold split_sentences. rewrite re_split_all_space by done.
  rewrite filter_cons, decide_False; [done|].
  unfold strip. by rewrite lstrip_all_space.
Qed.

Lemma drop_spaces_lstrip (s : string) :
  drop_spaces (list_ascii_of_string s) = list_ascii_of_string (lstrip s).
Proof.
  induction s as [|c s IH]; simpl; [done|]. by destruct (is_space c).
Qed.

Lemma drop_spaces_app (a b : list ascii) :
  drop_spaces (a ++ b)
  = if forallb is_space a then drop_spaces b else drop_spaces a ++ b.
Proof.
  induction a as [|c a IH]; simpl; [done|]. by destruct (is_space c).
Qed.

Lemma all_space_forallb (s : string) :
  all_space s = forallb is_space (list_ascii_of_string s).
Proof. induction s as [|c s IH]; simpl; [done|]. by rewrite IH. Qed.

Lemma forallb_rev {A : Type} (f : A → bool) (l : list A) :
  forallb f (rev l) = forallb f l.
Proof.
  induction l as [|x l IH]; simpl; [done|].
  rewrite forallb_app, IH. simpl. rewrite andb_true_r. apply andb_comm.
Qed.

Lemma rstrip_nonempty (s : string) :
  nonempty (rstrip s) = negb (all_space s).
Proof.
  induction s as [|c s IH]; simpl; [done|]. rewrite IH.
  by destruct (is_space c), (all_space s).
Qed.

Lemma drop_spaces_rev_rstrip (s : string) :
  rev (drop_spaces (rev (list_ascii_of_string s)))
  = list_ascii_of_string (rstrip s).
Proof.
  induction s as [|c s IH]; simpl; [done|].
  rewrite drop_spaces_app, forallb_rev, <- all_space_forallb.
  rewrite rstrip_nonempty, negb_involutive.
  destruct (all_space s) eqn:Hs; simpl.
  - assert (rstrip s = "") as ->.
    { pose proof (rstrip_nonempty s) as Hn. rewrite Hs in Hn.
      by destruct (rstrip s). }
    rewrite andb_true_r. by destruct (is_space c).
  - rewrite andb_false_r, rev_app_distr. simpl. by rewrite IH.
Qed.

(** Trimming as the specification words it is what [strip] does. *)
Lemma spec_trim_strip (s : string) : spec_trim s = strip s.
Proof.
  unfold spec_trim, strip.
  by rewrite drop_spaces_lstrip, drop_spaces_rev_rstrip,
    string_of_list_ascii_of_string.
Qed.

Lemma rstrip_no_trailing_space (s : string) :
  ends_with_space (rstrip s) = false.
Proof.
  induction s as [|c s IH]; simpl; [done|].
  destruct (is_space c && negb (nonempty (rstrip s))) eqn:E; [done|].
  destruct (rstrip s) as [|d r]; simpl in *; [|done].
  by rewrite andb_true_r in E.
Qed.

Lemma strip_no_surrounding_space (s : string) :
  starts_with_space (strip s) = false ∧ ends_with_space (strip s) = false.
Proof.
  unfold strip. split.
  - apply rstrip_no_space, lstrip_no_space.
  - apply rstrip_no_trailing_space.
Qed.

(** C7. The sentence splitter of line 93 is the splitter the specification
    describes: it breaks after every [.], [!] or [?] that is followed by
    whitespace, leaves the mark with the preceding sentence, consumes the
    whitespace run as one boundary, trims every piece, drops the pieces
    that are empty after trimming and keeps the order; every sentence it
    returns is non-empty, neither starts nor ends with a whitespace
    character, and is left unchanged by [strip]. *)
Theorem split_sentences_refines_spec (text : string) :
  split_sentences text = spec_split_sentences text ∧
  Forall (λ s, s ≠ "" ∧ strip s = s) (split_sentences text) ∧
  Forall (λ s, starts_with_space s = false ∧ ends_with_space s = false)
    (split_sentences text).
Proof.
  unfold split_sentences, spec_split_sentences. rewrite re_split_spec.
  split_and!.
  - induction (spec_break text) as [|p ps IH]; [done|].
    rewrite fmap_cons, !filter_cons, spec_trim_strip. rewrite <- IH.
    destruct (decide (nonempty (strip p) = true)) as [Hp|Hp].
    + rewrite decide_True by (by apply nonempty_true). done.
    + rewrite decide_False; [done|]. intros Hne. by apply Hp, nonempty_true.
  - apply Forall_fmap, Forall_forall. intros p [Hp _]%list_elem_of_filter.
    simpl. split; [by apply nonempty_true | apply strip_idemp].
  - apply Forall_fmap, Forall_forall. intros p _. simpl.
    apply strip_no_surrounding_space.
Qed.

(** ** Topic selection *)

Lemma keyword_loop_spec (sentence : string) (keywords main_topics : list string) :
  keyword_loop sentence keywords main_topics
  = if matches_any keywords sentence && not_in sentence main_topics
    then main_topics ++ [sentence]
    else main_topics.
Proof.
  induction keywords as [|k ks IH]; simpl; [done|].
  destruct (contains k (lower sentence)); simpl.
  - destruct (not_in sentence main_topics); [done|].
    by rewrite IH, andb_false_r.
  - exact IH.
Qed.

Lemma matches_any_perm (keywords keywords' : list string) (sentence : string) :
  keywords ≡ₚ keywords' →
  matches_any keywords sentence = matches_any keywords' sentence.
Proof.
  unfold matches_any.
  induction 1 as [|k ks ks' _ IH|k1 k2 ks|ks1 ks2 ks3 _ IH1 _ IH2]; simpl.
  - done.
  - by rewrite IH.
  - rewrite !orb_assoc. f_equal. apply orb_comm.
  - congruence.
Qed.

Lemma sentence_loop_perm (keywords keywords' sentences : list string) :
  keywords ≡ₚ keywords' →
  ∀ main_topics,
    sentence_loop keywords sentences main_topics
    = sentence_loop keywords' sentences main_topics.
Proof.
  intros Hp. induction sentences as [|s ss IH]; intros mt; simpl; [done|].
  rewrite !keyword_loop_spec, (matches_any_perm _ _ s Hp). apply IH.
Qed.

Lemma sentence_loop_no_match (keywords sentences : list string) :
  (∀ s, s ∈ sentences → matches_any keywords s = false) →
  ∀ main_topics, sentence_loop keywords sentences main_topics = main_topics.
Proof.
  induction sentences as [|s ss IH]; intros Hno mt; simpl; [done|].
  rewrite keyword_loop_spec, Hno by left. simpl.
  apply IH. intros s' Hs'. apply Hno. by right.
Qed.

Lemma sentence_loop_subseteq (keywords sentences : list string) :
  ∀ main_topics,
    sentence_loop keywords sentences main_topics ⊆ main_topics ++ sentences.
Proof.
  induction sentences as [|s ss IH]; intros mt; simpl.
  - by rewrite app_nil_r.
  - etrans; [apply IH|]. rewrite keyword_loop_spec.
    intros x. rewrite !elem_of_app, elem_of_cons.
    destruct (matches_any keywords s && not_in s mt);
      rewrite ?elem_of_app, ?list_elem_of_singleton; tauto.
Qed.

Lemma select_main_topics_subseteq (keywords sentences : list string) :
  select_main_topics keywords sentences ⊆ sentences.
Proof.
  unfold select_main_topics.
  pose proof (sentence_loop_subseteq keywords sentences []) as Hsub.
  destruct (sentence_loop keywords sentences []) as [|t ts];
    destruct sentences as [|s ss]; try done.
  apply sublist_subseteq, sublist_take.
Qed.

(** C4. When the sentence sequence is not empty and no sentence contains a
    configured keyword in its lower-cased form, the topics are the first
    [min(3, n)] sentences, in their order. *)
Theorem fallback_topics (sentences : list string) :
  sentences ≠ [] →
  (∀ s k, s ∈ sentences → k ∈ medical_keywords →
          contains k (lower s) = false) →
  select_main_topics medical_keywords sentences
  = take (min 3 (length sentences)) sentences.
Proof.
  intros Hne Hno. unfold select_main_topics.
  rewrite sentence_loop_no_match.
  - by destruct sentences.
  - intros s Hs. unfold matches_any.
    apply not_true_is_false. intros (k & Hk & Hc)%existsb_exists.
    apply list_elem_of_In in Hk. by rewrite (Hno s k Hs Hk) in Hc.
Qed.

Lemma fallback_topics_witness :
  let sentences := ["Weather was sunny."; "We went out."; "It rained.";
                    "We came back."] in
  select_main_topics medical_keywords sentences
  = ["Weather was sunny."; "We went out."; "It rained."].
Proof.
  intros sentences. apply (fallback_topics sentences).
  - done.
  - intros s k Hs Hk.
    revert k Hk. apply Forall_forall. revert s Hs. apply Forall_forall.
    repeat constructor.
Defined.

(** C9. The topic list does not depend on the order of the keyword list:
    a sentence is selected when some keyword occurs in its lower-cased
    form, whichever keyword is found first. *)
Theorem select_main_topics_keyword_order
    (keywords keywords' sentences : list string) :
  keywords ≡ₚ keywords' →
  select_main_topics keywords sentences
  = select_main_topics keywords' sentences.
Proof.
  intros Hp. unfold select_main_topics.
  by rewrite (sentence_loop_perm keywords keywords' sentences Hp).
Qed.

Lemma select_main_topics_keyword_order_witness :
  select_main_topics ["patient"; "treatment"; "rare"]
    ["Patient has a rare syndrome."; "It affects the liver.";
     "Treatment is ongoing."]
  = select_main_topics ["rare"; "patient"; "treatment"]
      ["Patient has a rare syndrome."; "It affects the liver.";
       "Treatment is ongoing."].
Proof.
  apply select_main_topics_keyword_order.
  change (["patient"; "treatment"] ++ ["rare"]
          ≡ₚ ["rare"] ++ ["patient"; "treatment"]).
  apply Permutation_app_comm.
Defined.

(** ** Node identifiers *)

Lemma append_inj_l (a x y : string) : a +:+ x = a +:+ y → x = y.
Proof.
  induction a as [|c a IH]; [done|].
  rewrite !append_cons. intros [= Heq]. auto.
Qed.

Lemma pretty_N_go_not_other (x : N) (s : string) :
  s ≠ "other" → pretty_N_go x s ≠ "other".
Proof.
  revert s. induction (N.lt_wf_0 x) as [x _ IH]; intros s Hs.
  assert (x = 0 ∨ 0 < x)%N as [->|Hx] by lia.
  - by rewrite pretty_N_go_0.
  - rewrite pretty_N_go_step by done. apply IH.
    + by apply N.div_lt.
    + unfold pretty_N_char. by repeat case_match.
Qed.

Lemma topic_id_not_other (i : nat) : topic_id i ≠ "node-other".
Proof.
  unfold topic_id. intros Heq.
  apply (append_inj_l "node-" _ "other") in Heq.
  unfold pretty, pretty_nat, pretty, pretty_N in Heq.
  destruct (decide (N.of_nat i = 0%N)); [done|].
  by apply pretty_N_go_not_other in Heq.
Qed.

Lemma other_sub_id_inj (j k : nat) : other_sub_id j = other_sub_id k → j = k.
Proof.
  unfold other_sub_id. intros Heq%append_inj_l. by apply (inj pretty).
Qed.

(** ** The loops of the assembler *)

Lemma other_details_nonempty (remaining : list string) :
  remaining ≠ [] →
  other_details remaining
  = [mkNode "node-other" "Other Details"
       (imap (λ k s, mkLeaf (other_sub_id k) s) remaining)].
Proof. by destruct remaining. Qed.

Section assembler_props.
Context {U : Type} `{!UsedSet U}.

Lemma used_mem_negb (s : string) (u : U) :
  negb (used_mem s u) = bool_decide (s ∉ used_repr u).
Proof. by rewrite used_mem_spec, bool_decide_not. Qed.

Lemma sub_loop_spec (i : nat) (sentences : list string) :
  ∀ children used added children' used',
    sub_loop i sentences children used added = (children', used') →
    ∃ new : list string,
      children'
      = children ++ imap (λ j s, mkLeaf (sub_id i (added + j)) s) new ∧
      new `sublist_of` sentences ∧
      NoDup new ∧
      (∀ s, s ∈ new → s ∉ used_repr used) ∧
      used_repr used' = used_repr used ∪ list_to_set new ∧
      added + length new ≤ added `max` 3.
Proof.
  induction sentences as [|s ss IH];
    intros children used added children' used' Heq; simpl in Heq.
  - injection Heq as <- <-. exists []. simpl. rewrite app_nil_r.
    split_and!; [done|done|constructor|set_solver|set_solver|lia].
  - destruct (negb (used_mem s used) && (added <? 3)) eqn:E.
    + apply andb_true_iff in E as [Hm Hlt].
      rewrite used_mem_negb in Hm. apply bool_decide_eq_true in Hm.
      apply Nat.ltb_lt in Hlt.
      apply IH in Heq as (new & -> & Hsub & Hnd & Hfresh & Hrepr & Hlen).
      rewrite used_repr_add in Hfresh, Hrepr.
      exists (s :: new). split_and!.
      * rewrite <- app_assoc. f_equal. simpl. rewrite Nat.add_0_r.
        f_equal. apply imap_ext. intros j x _. simpl.
        by rewrite Nat.add_succ_r.
      * by constructor.
      * constructor; [|done]. intros Hin. apply Hfresh in Hin. set_solver.
      * intros x [->|Hx]%elem_of_cons; [done|].
        apply Hfresh in Hx. set_solver.
      * rewrite Hrepr. set_solver.
      * simpl. lia.
    + apply IH in Heq as (new & -> & Hsub & Hnd & Hfresh & Hrepr & Hlen).
      exists new. split_and!; try done. by constructor.
Qed.

Lemma sub_loop_nodes_ok (i : nat) (sentences : list string) (used : U)
    (topic : string) :
  sub_nodes_ok i sentences
    (mkNode (topic_id i) topic (sub_loop i sentences [] used 0).1).
Proof.
  destruct (sub_loop i sentences [] used 0) as [children used'] eqn:Heq.
  apply sub_loop_spec in Heq as (new & -> & Hsub & _ & _ & _ & Hlen).
  unfold sub_nodes_ok. simpl in *. rewrite length_imap.
  split_and!; [lia| |].
  - rewrite fmap_imap, <- (imap_seq_0 new (sub_id i)).
    by apply imap_ext.
  - rewrite fmap_imap, (imap_ext _ (const id)) by done.
    by rewrite imap_const, list_fmap_id.
Qed.

Lemma topic_loop_spec (sentences : list string) :
  ∀ main_topics i root_children used,
    ∃ new_nodes : list Node,
      (topic_loop sentences i main_topics root_children used).1
      = root_children ++ new_nodes ∧
      length new_nodes = length main_topics ∧
      (∀ k t, main_topics !! k = Some t →
         ∃ n, new_nodes !! k = Some n ∧ node_id n = topic_id (i + k) ∧
              node_text n = t ∧ sub_nodes_ok (i + k) sentences n) ∧
      used_repr (topic_loop sentences i main_topics root_children used).2
      ⊆ used_repr used ∪ list_to_set main_topics ∪ list_to_set sentences.
Proof.
  induction main_topics as [|t ts IH]; intros i nodes used.
  - exists []. simpl. rewrite app_nil_r.
    split_and!; [done|done|intros k t' [=]|set_solver].
  - simpl.
    pose proof (sub_loop_nodes_ok i sentences (used_add t used) t) as Hok.
    destruct (sub_loop i sentences [] (used_add t used) 0)
      as [children used1] eqn:Hs.
    apply sub_loop_spec in Hs as (new & _ & Hsub & _ & _ & Hrepr & _).
    destruct (IH (S i) (nodes ++ [mkNode (topic_id i) t children]) used1)
      as (nn & H1 & H2 & H3 & H4).
    exists (mkNode (topic_id i) t children :: nn). split_and!.
    + by rewrite H1, <- app_assoc.
    + simpl. by rewrite H2.
    + intros [|k] t' Hk; simpl in Hk.
      * injection Hk as <-. eexists. split; [done|].
        rewrite Nat.add_0_r. done.
      * destruct (H3 k t' Hk) as (n & Hn & Hid & Htx & Hn_ok).
        exists n. rewrite Nat.add_succ_r. done.
    + etrans; [exact H4|]. rewrite Hrepr, used_repr_add.
      assert (list_to_set new ⊆ (list_to_set sentences : gset string))
        as Hnew.
      { intros x. rewrite !elem_of_list_to_set.
        by apply sublist_subseteq. }
      clear -Hnew. set_solver.
Qed.

Lemma other_loop_spec (sentences : list string) :
  ∀ children used,
    other_loop sentences children used
    = children ++
      imap (λ k s, mkLeaf (other_sub_id (length children + k)) s)
        (filter (λ s, s ∉ used_repr used) sentences).
Proof.
  induction sentences as [|s ss IH]; intros children used; simpl.
  - by rewrite app_nil_r.
  - rewrite used_mem_negb, filter_cons.
    destruct (decide (s ∉ used_repr used)) as [Hs|Hs].
    + rewrite bool_decide_true by done.
      rewrite IH, length_app, <- app_assoc. f_equal. simpl.
      rewrite Nat.add_0_r. f_equal. apply imap_ext. intros k x _. simpl.
      do 2 f_equal. lia.
    + rewrite bool_decide_false by done. apply IH.
Qed.

Lemma size_list_to_set_le (l : list string) :
  size (list_to_set l : gset string) ≤ length l.
Proof.
  induction l as [|x l IH].
  - done.
  - rewrite list_to_set_cons, size_union_alt, size_singleton. simpl.
    pose proof (subseteq_size (list_to_set l ∖ {[x]}) (list_to_set l)
                  (C := gset string)) as Hle.
    assert (list_to_set l ∖ {[x]} ⊆ (list_to_set l : gset string))
      by set_solver.
    specialize (Hle ltac:(assumption)). lia.
Qed.

(** The text of line 145 onwards as one equation: [node-other] is
    appended exactly when a sentence is left outside the used-set, with
    all such sentences as its children, in their order. *)
Lemma add_other_details_spec (sentences : list string)
    (root_children : list Node) (used : U) :
  used_repr used ⊆ list_to_set sentences →
  add_other_details sentences root_children used
  = root_children ++
    other_details (filter (λ s, s ∉ used_repr used) sentences).
Proof.
  intros Hsub. unfold add_other_details.
  rewrite other_loop_spec, used_len_spec. unfold other_details. simpl.
  destruct (filter (λ s, s ∉ used_repr used) sentences) as [|r rs] eqn:Hf.
  - simpl. rewrite app_nil_r. by destruct (_ <? _).
  - assert (r ∈ filter (λ s, s ∉ used_repr used) sentences) as Hr
      by (rewrite Hf; left).
    apply list_elem_of_filter in Hr as [Hfresh Hin].
    assert (size (used_repr used) < length sentences) as Hlt.
    { eapply Nat.lt_le_trans; [|apply size_list_to_set_le].
      apply subset_size. split; [done|].
      intros Hsup. apply Hfresh, Hsup. by apply elem_of_list_to_set. }
    apply Nat.ltb_lt in Hlt. rewrite Hlt. done.
Qed.

Lemma topics_used_subseteq (sentences main_topics : list string) :
  main_topics ⊆ sentences →
  used_repr (used_after_topics U sentences main_topics)
  ⊆ list_to_set sentences.
Proof.
  intros Hsub. unfold used_after_topics.
  destruct (topic_loop_spec sentences main_topics 0 [] used_empty)
    as (_ & _ & _ & _ & Hused).
  etrans; [exact Hused|]. rewrite used_repr_empty.
  intros x. rewrite !elem_of_union, !elem_of_list_to_set.
  intros [[Hx|Hx]|Hx]; [set_solver|by apply Hsub|done].
Qed.

Lemma build_mindmap_children (sentences main_topics : list string) :
  main_topics ⊆ sentences →
  mm_children (build_mindmap U sentences main_topics)
  = topic_nodes U sentences main_topics ++
    other_details
      (filter
         (λ s, s ∉ used_repr (used_after_topics U sentences main_topics))
         sentences).
Proof.
  intros Hsub. pose proof (topics_used_subseteq _ _ Hsub) as Hused.
  unfold build_mindmap, topic_nodes, used_after_topics in *.
  destruct (topic_loop sentences 0 main_topics [] used_empty)
    as [nodes used]. simpl in *.
  by apply add_other_details_spec.
Qed.

Lemma topic_nodes_spec (sentences main_topics : list string) :
  length (topic_nodes U sentences main_topics) = length main_topics ∧
  ∀ i t, main_topics !! i = Some t →
    ∃ n, topic_nodes U sentences main_topics !! i = Some n ∧
         node_id n = topic_id i ∧ node_text n = t ∧
         sub_nodes_ok i sentences n.
Proof.
  unfold topic_nodes.
  destruct (topic_loop_spec sentences main_topics 0 [] used_empty)
    as (nn & -> & Hlen & Hnodes & _).
  simpl. split; [done|]. intros i t Hi. by apply Hnodes.
Qed.

End assembler_props.

(** ** Independence of the used-set implementation *)

Section two_implementations.
Context {U1 U2 : Type} `{!UsedSet U1} `{!UsedSet U2}.

Lemma sub_loop_impl (i : nat) (sentences : list string) :
  ∀ children (u1 : U1) (u2 : U2) added,
    used_repr u1 = used_repr u2 →
    (sub_loop i sentences children u1 added).1
    = (sub_loop i sentences children u2 added).1 ∧
    used_repr (sub_loop i sentences children u1 added).2
    = used_repr (sub_loop i sentences children u2 added).2.
Proof.
  induction sentences as [|s ss IH]; intros children u1 u2 added Hu; simpl.
  - done.
  - rewrite !used_mem_spec, Hu.
    destruct (negb (bool_decide (s ∈ used_repr u2)) && (added <? 3)).
    + apply IH. by rewrite !used_repr_add, Hu.
    + by apply IH.
Qed.

Lemma topic_loop_impl (sentences : list string) :
  ∀ main_topics i root_children (u1 : U1) (u2 : U2),
    used_repr u1 = used_repr u2 →
    (topic_loop sentences i main_topics root_children u1).1
    = (topic_loop sentences i main_topics root_children u2).1 ∧
    used_repr (topic_loop sentences i main_topics root_children u1).2
    = used_repr (topic_loop sentences i main_topics root_children u2).2.
Proof.
  induction main_topics as [|t ts IH]; intros i nodes u1 u2 Hu; simpl.
  - done.
  - destruct (sub_loop_impl i sentences [] (used_add t u1) (used_add t u2) 0)
      as [Hc Hr]; [by rewrite !used_repr_add, Hu|].
    destruct (sub_loop i sentences [] (used_add t u1) 0) as [c1 v1].
    destruct (sub_loop i sentences [] (used_add t u2) 0) as [c2 v2].
    simpl in Hc, Hr. subst c2. by apply IH.
Qed.

Lemma add_other_details_impl (sentences : list string)
    (root_children : list Node) (u1 : U1) (u2 : U2) :
  used_repr u1 = used_repr u2 →
  add_other_details sentences root_children u1
  = add_other_details sentences root_children u2.
Proof.
  intros Hu. unfold add_other_details.
  by rewrite !other_loop_spec, !used_len_spec, Hu.
Qed.

Lemma build_mindmap_impl (sentences main_topics : list string) :
  build_mindmap U1 sentences main_topics
  = build_mindmap U2 sentences main_topics.
Proof.
  unfold build_mindmap.
  destruct (topic_loop_impl sentences main_topics 0 []
              (used_empty (U := U1)) (used_empty (U := U2)))
    as [Hn Hr]; [by rewrite !used_repr_empty|].
  destruct (topic_loop sentences 0 main_topics [] (used_empty (U := U1)))
    as [n1 v1].
  destruct (topic_loop sentences 0 main_topics [] (used_empty (U := U2)))
    as [n2 v2].
  simpl in Hn, Hr. subst n2. f_equal. by apply add_other_details_impl.
Qed.

Lemma generate_mindmap_data_impl (full_summary : string) :
  generate_mindmap_data U1 full_summary
  = generate_mindmap_data U2 full_summary.
Proof. apply build_mindmap_impl. Qed.
End two_implementations.

(** ** The claims about the tree *)

(** C3. When the splitter returns no sentence, the result is the root
    record alone: no topic node, no fallback topic, no [node-other]. The
    function is total, so this is also the statement that it returns. *)
Theorem no_sentences_root_only (U : Type) `{!UsedSet U} (text : string) :
  split_sentences text = [] →
  generate_mindmap_data U text
  = mkMindmap "root" "Medical Document Overview" [].
Proof.
  intros Hs. unfold generate_mindmap_data. rewrite Hs.
  unfold build_mindmap, add_other_details. simpl.
  by destruct (used_len used_empty <? 0).
Qed.

Lemma no_sentences_root_only_witness :
  split_sentences "   " = [] ∧
  generate_mindmap_data (gset string) "   "
  = mkMindmap "root" "Medical Document Overview" [].
Proof.
  split; [reflexivity|].
  apply (no_sentences_root_only (gset string) "   "). reflexivity.
Defined.

(** C5. Every topic node [node-<i>] has at most three children; their ids
    are [node-<i>-sub-0], [node-<i>-sub-1], ... in the order of assignment,
    and their texts follow the order of the sentence sequence. *)
Theorem topic_node_children (U : Type) `{!UsedSet U} (text : string)
    (i : nat) (t : string) :
  let sentences := split_sentences text in
  select_main_topics medical_keywords sentences !! i = Some t →
  ∃ n, mm_children (generate_mindmap_data U text) !! i = Some n ∧
       node_id n = topic_id i ∧ node_text n = t ∧
       length (node_children n) ≤ 3 ∧
       leaf_id <$> node_children n
       = sub_id i <$> seq 0 (length (node_children n)) ∧
       (leaf_text <$> node_children n) `sublist_of` sentences.
Proof.
  intros sentences Ht. unfold generate_mindmap_data. fold sentences.
  rewrite build_mindmap_children by apply select_main_topics_subseteq.
  destruct (topic_nodes_spec (U := U) sentences
              (select_main_topics medical_keywords sentences)) as [_ Hnodes].
  destruct (Hnodes i t Ht) as (n & Hn & Hid & Htx & Hlen & Hids & Hsub).
  exists n. split_and!; try done.
  by apply lookup_app_l_Some.
Qed.

Lemma topic_node_children_witness :
  ∃ n, mm_children (generate_mindmap_data (gset string) example_summary) !! 1
       = Some n ∧
       node_id n = topic_id 1 ∧ node_text n = "Treatment is ongoing." ∧
       length (node_children n) ≤ 3 ∧
       leaf_id <$> node_children n
       = sub_id 1 <$> seq 0 (length (node_children n)) ∧
       (leaf_text <$> node_children n)
         `sublist_of` split_sentences example_summary.
Proof.
  apply (topic_node_children (gset string) example_summary 1
           "Treatment is ongoing.").
  vm_compute. reflexivity.
Defined.

(** C6. [node-other] (text "Other Details") is a child of the root exactly
    when some sentence is outside the used-set after the topics and their
    sub-nodes are assigned. It is then the last child, and its children are
    all those sentences, in their order, with the ids [node-other-sub-0],
    [node-other-sub-1], ...; otherwise the root has the topic nodes only. *)
Theorem other_details_iff_unused (U : Type) `{!UsedSet U} (text : string) :
  let sentences := split_sentences text in
  let main_topics := select_main_topics medical_keywords sentences in
  let used := used_after_topics U sentences main_topics in
  let remaining := filter (λ s, s ∉ used_repr used) sentences in
  ((∃ n, n ∈ mm_children (generate_mindmap_data U text) ∧
         node_id n = "node-other") ↔ remaining ≠ []) ∧
  mm_children (generate_mindmap_data U text)
  = topic_nodes U sentences main_topics ++
    match remaining with
    | [] => []
    | _ :: _ =>
        [mkNode "node-other" "Other Details"
           (imap (λ k s, mkLeaf (other_sub_id k) s) remaining)]
    end.
Proof.
  intros sentences main_topics used remaining.
  assert (mm_children (generate_mindmap_data U text)
          = topic_nodes U sentences main_topics ++
            match remaining with
            | [] => []
            | _ :: _ =>
                [mkNode "node-other" "Other Details"
                   (imap (λ k s, mkLeaf (other_sub_id k) s) remaining)]
            end) as Heq.
  { unfold generate_mindmap_data. fold sentences main_topics.
    by rewrite build_mindmap_children by apply select_main_topics_subseteq. }
  split; [|exact Heq]. rewrite Heq.
  destruct (topic_nodes_spec (U := U) sentences main_topics) as [_ Hnodes].
  assert (∀ n, n ∈ topic_nodes U sentences main_topics →
               node_id n ≠ "node-other") as Htopic.
  { intros n (i & Hi)%list_elem_of_lookup.
    assert (is_Some (main_topics !! i)) as [t Ht].
    { apply lookup_lt_is_Some.
      destruct (topic_nodes_spec (U := U) sentences main_topics) as [<- _].
      by eapply lookup_lt_Some. }
    destruct (Hnodes i t Ht) as (n' & Hn' & Hid & _).
    assert (n' = n) as -> by congruence.
    rewrite Hid. apply topic_id_not_other. }
  split.
  - intros (n & Hn & Hid). destruct remaining; [|done].
    rewrite app_nil_r in Hn. by apply Htopic in Hn.
  - intros Hne. destruct remaining as [|r rs]; [done|].
    eexists. split; [apply elem_of_app; right; left|done].
Qed.

#[global] Instance other_sub_id_Inj : Inj (=) (=) other_sub_id.
Proof. intros j k. apply other_sub_id_inj. Qed.

Lemma filter_text_imap (s : string) (l : list string) :
  ∀ f : nat → string,
    length (filter (λ lf, leaf_text lf = s) (imap (λ k x, mkLeaf (f k) x) l))
    = length (filter (λ x, x = s) l).
Proof.
  induction l as [|x l IH]; intros f; [done|].
  rewrite imap_cons, !filter_cons.
  pose proof (IH (f ∘ S)) as IH'.
  destruct (decide (x = s)) as [Hx|Hx]; simpl.
  - rewrite decide_True by done. simpl. f_equal. exact IH'.
  - rewrite decide_False by done. exact IH'.
Qed.

Lemma filter_eq_unused (s : string) (X : gset string) (l : list string) :
  s ∉ X →
  filter (λ x, x = s) (filter (λ x, x ∉ X) l) = filter (λ x, x = s) l.
Proof.
  intros Hs. induction l as [|x l IH]; [done|].
  rewrite (filter_cons (λ x, x ∉ X)), (filter_cons (λ x, x = s) x l).
  destruct (decide (x ∉ X)) as [Hx|Hx].
  - rewrite filter_cons, IH. done.
  - rewrite IH. destruct (decide (x = s)) as [->|]; [done|done].
Qed.

(** C10. The scan for [node-other] only reads the used-set. A sentence
    string that is outside the used-set after the topics are processed and
    occurs [k] times in the sentence sequence (in particular [k > 1]) is the
    text of exactly [k] children of [node-other], whose ids are the distinct
    sequential [node-other-sub-0], [node-other-sub-1], ... *)
Theorem other_details_repeats_unused (U : Type) `{!UsedSet U}
    (text s : string) (k : nat) :
  let sentences := split_sentences text in
  let main_topics := select_main_topics medical_keywords sentences in
  let used := used_after_topics U sentences main_topics in
  s ∉ used_repr used →
  length (filter (λ x, x = s) sentences) = k →
  0 < k →
  ∃ other,
    last (mm_children (generate_mindmap_data U text)) = Some other ∧
    node_id other = "node-other" ∧
    length (filter (λ lf, leaf_text lf = s) (node_children other)) = k ∧
    leaf_id <$> node_children other
    = other_sub_id <$> seq 0 (length (node_children other)) ∧
    NoDup (leaf_id <$> node_children other).
Proof.
  intros sentences main_topics used Hs Hk Hpos.
  unfold generate_mindmap_data. fold sentences main_topics.
  rewrite build_mindmap_children by apply select_main_topics_subseteq.
  fold used. rewrite <- (filter_eq_unused s (used_repr used)) in Hk by done.
  set (remaining := filter (λ x, x ∉ used_repr used) sentences) in *.
  rewrite other_details_nonempty by (intros Hnil; rewrite Hnil in Hk; simpl in Hk; lia).
  rewrite last_snoc. eexists. split; [done|]. cbn [node_id node_children].
  assert (leaf_id <$> imap (λ k s, mkLeaf (other_sub_id k) s) remaining
          = other_sub_id <$> seq 0 (length remaining)) as Hids.
  { rewrite fmap_imap, <- (imap_seq_0 remaining other_sub_id).
    by apply imap_ext. }
  split_and!.
  - done.
  - by rewrite filter_text_imap.
  - by rewrite length_imap.
  - rewrite Hids. apply NoDup_fmap_2; [apply _|apply NoDup_seq].
Qed.

Lemma other_details_repeats_unused_witness :
  ∃ other,
    last (mm_children
            (generate_mindmap_data (gset string) "Patient a. B. C. D. E. E."))
    = Some other ∧
    node_id other = "node-other" ∧
    length (filter (λ lf, leaf_text lf = "E.") (node_children other)) = 2 ∧
    leaf_id <$> node_children other
    = other_sub_id <$> seq 0 (length (node_children other)) ∧
    NoDup (leaf_id <$> node_children other).
Proof.
  apply (other_details_repeats_unused (gset string)
           "Patient a. B. C. D. E. E." "E." 2).
  - apply (bool_decide_unpack _). vm_compute. exact I.
  - vm_compute. reflexivity.
  - lia.
Defined.

(** C8. The tree is a function of the summary text alone: equal texts give
    equal trees (ids, texts and the order of children), whichever lawful
    implementation of the used-set carries out either run. In particular
    the hash order of a Python [set] cannot show in the result. *)
Theorem generate_mindmap_data_deterministic (U1 U2 : Type)
    `{!UsedSet U1} `{!UsedSet U2} (text1 text2 : string) :
  text1 = text2 →
  generate_mindmap_data U1 text1 = generate_mindmap_data U2 text2.
Proof. intros ->. apply generate_mindmap_data_impl. Qed.

Lemma generate_mindmap_data_deterministic_witness :
  generate_mindmap_data (gset string) example_summary
  = generate_mindmap_data (list string) example_summary.
Proof.
  apply (generate_mindmap_data_deterministic (gset string) (list string)).
  reflexivity.
Defined.

(** ** The example of the specification *)

(** C2. On the example text the splitter returns the five sentences and
    the topics are the two keyword sentences, but the tree is not the one
    of the example: when [node-0] is filled, "Treatment is ongoing." is not
    yet in the used-set, so it becomes [node-0-sub-1]; "Final note here."
    is left for [node-1]. *)
Theorem example_summary_tree (U : Type) `{!UsedSet U} :
  split_sentences example_summary
  = ["Patient has a rare syndrome."; "It affects the liver.";
     "Treatment is ongoing."; "Weather was sunny."; "Final note here."] ∧
  select_main_topics medical_keywords (split_sentences example_summary)
  = ["Patient has a rare syndrome."; "Treatment is ongoing."] ∧
  generate_mindmap_data U example_summary
  = mkMindmap "root" "Medical Document Overview"
      [mkNode "node-0" "Patient has a rare syndrome."
         [mkLeaf "node-0-sub-0" "It affects the liver.";
          mkLeaf "node-0-sub-1" "Treatment is ongoing.";
          mkLeaf "node-0-sub-2" "Weather was sunny."];
       mkNode "node-1" "Treatment is ongoing."
         [mkLeaf "node-1-sub-0" "Final note here."]].
Proof.
  split_and!; [by vm_compute|by vm_compute|].
  rewrite (generate_mindmap_data_impl (U2 := gset string)).
  by vm_compute.
Qed.

(** C1. The tree of the example text carries "Treatment is ongoing." twice,
    as the text of [node-0-sub-1] and of [node-1]: a topic enters the
    used-set only when its own node is created, after the earlier topics
    have taken their sub-nodes. *)
Theorem example_summary_repeats_sentence (U : Type) `{!UsedSet U} :
  let m := generate_mindmap_data U example_summary in
  sentence_entries m
  = [("node-0", "Patient has a rare syndrome.");
     ("node-0-sub-0", "It affects the liver.");
     ("node-0-sub-1", "Treatment is ongoing.");
     ("node-0-sub-2", "Weather was sunny.");
     ("node-1", "Treatment is ongoing.");
     ("node-1-sub-0", "Final note here.")] ∧
  ¬ NoDup (snd <$> sentence_entries m).
Proof.
  intros m.
  assert (sentence_entries m
          = [("node-0", "Patient has a rare syndrome.");
             ("node-0-sub-0", "It affects the liver.");
             ("node-0-sub-1", "Treatment is ongoing.");
             ("node-0-sub-2", "Weather was sunny.");
             ("node-1", "Treatment is ongoing.");
             ("node-1-sub-0", "Final note here.")]) as Heq.
  { unfold m. rewrite (generate_mindmap_data_impl (U2 := gset string)).
    by vm_compute. }
  split; [exact Heq|]. rewrite Heq.
  apply (proj1 (bool_decide_eq_false _)). by vm_compute.
Qed.


(** ** What the used-set does guarantee *)

Section used_set_props.
Context {U : Type} `{!UsedSet U}.

Lemma sub_texts_app (l1 l2 : list Node) :
  sub_texts (l1 ++ l2) = sub_texts l1 ++ sub_texts l2.
Proof. unfold sub_texts. apply bind_app. Qed.

Lemma topic_loop_used (sentences : list string) :
  ∀ main_topics i root_children used,
    ∃ new_nodes : list Node,
      (topic_loop sentences i main_topics root_children used).1
      = root_children ++ new_nodes ∧
      used_repr (topic_loop sentences i main_topics root_children used).2
      = used_repr used ∪ list_to_set main_topics
        ∪ list_to_set (sub_texts new_nodes) ∧
      NoDup (sub_texts new_nodes) ∧
      (∀ s, s ∈ sub_texts new_nodes → s ∉ used_repr used).
Proof.
  induction main_topics as [|t ts IH]; intros i nodes used.
  - exists []. simpl. rewrite app_nil_r.
    split_and!; [done|set_solver|constructor|set_solver].
  - simpl.
    destruct (sub_loop i sentences [] (used_add t used) 0)
      as [children used1] eqn:Hs.
    apply sub_loop_spec in Hs as (new & Hc & _ & Hnd & Hfresh & Hrepr & _).
    rewrite used_repr_add in Hfresh, Hrepr.
    destruct (IH (S i) (nodes ++ [mkNode (topic_id i) t children]) used1)
      as (nn & H1 & H2 & H3 & H4).
    assert (leaf_text <$> children = new) as Htexts.
    { rewrite Hc. simpl.
      rewrite fmap_imap, (imap_ext _ (const id)) by done.
      by rewrite imap_const, list_fmap_id. }
    assert (sub_texts (mkNode (topic_id i) t children :: nn)
            = new ++ sub_texts nn) as Hsub.
    { unfold sub_texts at 1. simpl. by rewrite Htexts. }
    exists (mkNode (topic_id i) t children :: nn). rewrite Hsub.
    rewrite Hrepr in H2, H4. split_and!.
    + by rewrite H1, <- app_assoc.
    + rewrite H2, list_to_set_app_L. clear. set_solver.
    + apply NoDup_app. split_and!; [done| |done].
      intros x Hx Hx'. apply H4 in Hx'. apply Hx'.
      apply elem_of_union. right. by apply elem_of_list_to_set.
    + intros x [Hx|Hx]%elem_of_app.
      * apply Hfresh in Hx. clear -Hx. set_solver.
      * apply H4 in Hx. clear -Hx. set_solver.
Qed.

(** X7. Whatever the input, the sub-nodes of the topic nodes carry pairwise
    distinct texts, and no child of [node-other] repeats the text of a
    topic node or of a sub-node. (A sub-node may still repeat the text of
    a later topic, and topics and [node-other] children may repeat among
    themselves when the input repeats a sentence.) *)
Theorem used_set_guarantee (text : string) :
  let sentences := split_sentences text in
  let main_topics := select_main_topics medical_keywords sentences in
  let nodes := topic_nodes U sentences main_topics in
  let used := used_after_topics U sentences main_topics in
  NoDup (sub_texts nodes) ∧
  ∀ s, s ∈ filter (λ x, x ∉ used_repr used) sentences →
       (s ∉ main_topics) ∧ (s ∉ sub_texts nodes).
Proof.
  intros sentences main_topics nodes used.
  unfold nodes, used, topic_nodes, used_after_topics.
  destruct (topic_loop_used sentences main_topics 0 [] used_empty)
    as (nn & -> & -> & Hnd & _).
  simpl. split; [done|].
  intros s [Hs _]%list_elem_of_filter.
  rewrite !not_elem_of_union, !elem_of_list_to_set in Hs. tauto.
Qed.

(** A repeated input sentence is repeated in the tree by the fallback
    topics (line 106) ... *)
Example repeated_sentence_fallback :
  generate_mindmap_data U "Hello there. Hello there."
  = mkMindmap "root" "Medical Document Overview"
      [mkNode "node-0" "Hello there." [];
       mkNode "node-1" "Hello there." []].
Proof.
  rewrite (generate_mindmap_data_impl (U2 := gset string)). by vm_compute.
Qed.

(** ... and by the [node-other] scan (lines 151-156). *)
Example repeated_sentence_other :
  generate_mindmap_data U "Patient a. B. C. D. E. E."
  = mkMindmap "root" "Medical Document Overview"
      [mkNode "node-0" "Patient a."
         [mkLeaf "node-0-sub-0" "B."; mkLeaf "node-0-sub-1" "C.";
          mkLeaf "node-0-sub-2" "D."];
       mkNode "node-other" "Other Details"
         [mkLeaf "node-other-sub-0" "E."; mkLeaf "node-other-sub-1" "E."]].
Proof.
  rewrite (generate_mindmap_data_impl (U2 := gset string)). by vm_compute.
Qed.

End used_set_props.

(** ** The sentences and the tree *)

Section tree_contents.
Context {U : Type} `{!UsedSet U}.

Lemma topic_nodes_elem (sentences main_topics : list string) (n : Node) :
  n ∈ topic_nodes U sentences main_topics →
  ∃ i t, main_topics !! i = Some t ∧ node_id n = topic_id i ∧
         node_text n = t ∧ sub_nodes_ok i sentences n.
Proof.
  intros (i & Hi)%list_elem_of_lookup.
  destruct (topic_nodes_spec (U := U) sentences main_topics) as [Hlen Hnodes].
  assert (is_Some (main_topics !! i)) as [t Ht].
  { apply lookup_lt_is_Some. rewrite <- Hlen. by eapply lookup_lt_Some. }
  destruct (Hnodes i t Ht) as (n' & Hn' & Hid & Htx & Hok).
  assert (n' = n) as -> by congruence. by exists i, t.
Qed.

Lemma topic_nodes_not_other (sentences main_topics : list string) (n : Node) :
  n ∈ topic_nodes U sentences main_topics → node_id n ≠ "node-other".
Proof.
  intros (i & t & _ & -> & _)%topic_nodes_elem. apply topic_id_not_other.
Qed.

Lemma topic_nodes_text_of_topic (sentences main_topics : list string)
    (t : string) :
  t ∈ main_topics →
  ∃ n, n ∈ topic_nodes U sentences main_topics ∧ node_text n = t.
Proof.
  intros (i & Hi)%list_elem_of_lookup.
  destruct (topic_nodes_spec (U := U) sentences main_topics) as [_ Hnodes].
  destruct (Hnodes i t Hi) as (n & Hn & _ & Htx & _).
  exists n. split; [by eapply list_elem_of_lookup_2|done].
Qed.

Lemma elem_of_sub_texts (nodes : list Node) (s : string) :
  s ∈ sub_texts nodes ↔
  ∃ n lf, n ∈ nodes ∧ lf ∈ node_children n ∧ leaf_text lf = s.
Proof.
  unfold sub_texts. rewrite list_elem_of_bind. split.
  - intros (n & (lf & -> & Hlf)%list_elem_of_fmap & Hn). by exists n, lf.
  - intros (n & lf & Hn & Hlf & <-). exists n. split; [|done].
    apply list_elem_of_fmap. by exists lf.
Qed.

Lemma sub_texts_subseteq (sentences main_topics : list string) :
  sub_texts (topic_nodes U sentences main_topics) ⊆ sentences.
Proof.
  intros s (n & lf & Hn & Hlf & <-)%elem_of_sub_texts.
  apply topic_nodes_elem in Hn as (i & t & _ & _ & _ & _ & _ & Hsub).
  eapply sublist_subseteq; [exact Hsub|].
  apply list_elem_of_fmap. by exists lf.
Qed.

Lemma used_after_topics_repr (sentences main_topics : list string) :
  used_repr (used_after_topics U sentences main_topics)
  = list_to_set main_topics
    ∪ list_to_set (sub_texts (topic_nodes U sentences main_topics)).
Proof.
  unfold used_after_topics, topic_nodes.
  destruct (topic_loop_used sentences main_topics 0 [] used_empty)
    as (nn & -> & -> & _ & _).
  simpl. rewrite used_repr_empty. set_solver.
Qed.

Lemma elem_of_other_details (remaining : list string) (n : Node) :
  n ∈ other_details remaining →
  node_id n = "node-other" ∧ remaining ≠ [] ∧
  leaf_text <$> node_children n = remaining.
Proof.
  destruct (decide (remaining = [])) as [->|Hne].
  { by intros ?%elem_of_nil. }
  rewrite other_details_nonempty by done.
  intros ->%list_elem_of_singleton. split_and!; [done|done|].
  cbn [node_children]. rewrite fmap_imap, (imap_ext _ (const id)) by done.
  by rewrite imap_const, list_fmap_id.
Qed.

(** X1. The tree neither loses nor invents a sentence: a string is a sentence
    of the summary exactly when it is the text of a topic node or of a
    leaf (a sub-node or a child of [node-other]). *)
Theorem tree_texts_are_the_sentences (text s : string) :
  let m := generate_mindmap_data U text in
  s ∈ split_sentences text ↔
  (∃ n, n ∈ mm_children m ∧ node_id n ≠ "node-other" ∧ node_text n = s) ∨
  (∃ n lf, n ∈ mm_children m ∧ lf ∈ node_children n ∧ leaf_text lf = s).
Proof.
  intros m. unfold m, generate_mindmap_data.
  set (sentences := split_sentences text).
  set (main_topics := select_main_topics medical_keywords sentences).
  pose proof (select_main_topics_subseteq medical_keywords sentences) as Hts.
  fold main_topics in Hts.
  rewrite build_mindmap_children by done.
  pose proof (used_after_topics_repr sentences main_topics) as Hused.
  set (used := used_after_topics U sentences main_topics) in *.
  set (nodes := topic_nodes U sentences main_topics) in *.
  set (remaining := filter (λ x, x ∉ used_repr used) sentences).
  split.
  - intros Hs. destruct (decide (s ∈ used_repr used)) as [Hin|Hout].
    + rewrite Hused, elem_of_union, !elem_of_list_to_set in Hin.
      destruct Hin as [Ht|Hsub].
      * left. destruct (topic_nodes_text_of_topic sentences main_topics s Ht)
          as (n & Hn & Htx).
        exists n. split_and!; [apply elem_of_app; by left| |done].
        by eapply topic_nodes_not_other.
      * right. apply elem_of_sub_texts in Hsub as (n & lf & Hn & Hlf & Htx).
        exists n, lf. split_and!; [apply elem_of_app; by left|done|done].
    + right.
      assert (s ∈ remaining) as Hrem by (by apply list_elem_of_filter).
      assert (remaining ≠ []) as Hne by (intros E; rewrite E in Hrem;
                                         by apply elem_of_nil in Hrem).
      rewrite other_details_nonempty by done.
      apply list_elem_of_lookup in Hrem as (k & Hk).
      eexists _, (mkLeaf (other_sub_id k) s).
      split_and!; [apply elem_of_app; right; left| |done].
      cbn [node_children]. apply list_elem_of_lookup. exists k.
      by rewrite list_lookup_imap, Hk.
  - intros [(n & Hn & Hid & Htx)|(n & lf & Hn & Hlf & Htx)].
    + apply elem_of_app in Hn as [Hn|Hn].
      * apply topic_nodes_elem in Hn as (i & t & Hi & _ & Ht & _).
        apply Hts. subst s. rewrite Ht. by eapply list_elem_of_lookup_2.
      * by apply elem_of_other_details in Hn as [? _].
    + apply elem_of_app in Hn as [Hn|Hn].
      * apply (sub_texts_subseteq sentences main_topics).
        apply elem_of_sub_texts. by exists n, lf.
      * apply elem_of_other_details in Hn as (_ & _ & Htexts).
        assert (s ∈ remaining) as Hrem.
        { rewrite <- Htexts, <- Htx. apply list_elem_of_fmap. by exists lf. }
        by apply list_elem_of_filter in Hrem as [_ ?].
Qed.

End tree_contents.

(** ** Greedy assignment: full nodes first *)

Section greedy.
Context {U : Type} `{!UsedSet U}.

Lemma sub_loop_exhaust (i : nat) (sentences : list string) :
  ∀ children used added children' used',
    sub_loop i sentences children used added = (children', used') →
    length children' < length children + (3 - added) →
    exhausted sentences used'.
Proof.
  induction sentences as [|s ss IH];
    intros children used added children' used' Heq Hlen x Hx.
  { by apply elem_of_nil in Hx. }
  simpl in Heq.
  destruct (negb (used_mem s used) && (added <? 3)) eqn:E.
  - apply andb_true_iff in E as [_ Hlt%Nat.ltb_lt].
    pose proof (sub_loop_spec _ _ _ _ _ _ _ Heq)
      as (new & _ & _ & _ & _ & Hrepr & _).
    rewrite used_repr_add in Hrepr.
    apply elem_of_cons in Hx as [->|Hx].
    + rewrite Hrepr. set_solver.
    + eapply IH; [exact Heq| |done]. rewrite length_app. simpl. lia.
  - pose proof (sub_loop_spec _ _ _ _ _ _ _ Heq)
      as (new & Hc & _ & _ & _ & Hrepr & _).
    apply andb_false_iff in E as [Hm|Hge].
    + apply elem_of_cons in Hx as [->|Hx].
      * rewrite used_mem_negb in Hm. apply bool_decide_eq_false in Hm.
        rewrite Hrepr. apply elem_of_union. left.
        destruct (decide (s ∈ used_repr used)); [done|]. by destruct Hm.
      * by eapply IH.
    + apply Nat.ltb_ge in Hge. rewrite Hc, length_app in Hlen. lia.
Qed.

Lemma sub_loop_exhausted (i : nat) (sentences : list string) :
  ∀ children used added,
    exhausted sentences used →
    sub_loop i sentences children used added = (children, used).
Proof.
  induction sentences as [|s ss IH]; intros children used added Hex;
    simpl; [done|].
  rewrite used_mem_spec, bool_decide_true by (apply Hex; left). simpl.
  apply IH. intros x Hx. apply Hex. by right.
Qed.

Lemma topic_loop_exhausted (sentences : list string) :
  ∀ main_topics i root_children used,
    exhausted sentences used →
    ∃ new_nodes,
      (topic_loop sentences i main_topics root_children used).1
      = root_children ++ new_nodes ∧
      ∀ n, n ∈ new_nodes → node_children n = [].
Proof.
  induction main_topics as [|t ts IH]; intros i nodes used Hex.
  - exists []. simpl. rewrite app_nil_r. split; [done|].
    by intros n ?%elem_of_nil.
  - simpl.
    assert (exhausted sentences (used_add t used)) as Hex'.
    { intros x Hx. rewrite used_repr_add. apply elem_of_union. right.
      by apply Hex. }
    rewrite sub_loop_exhausted by done.
    destruct (IH (S i) (nodes ++ [mkNode (topic_id i) t []]) _ Hex')
      as (nn & -> & Hnn).
    exists (mkNode (topic_id i) t [] :: nn). split.
    + by rewrite <- app_assoc.
    + intros n [->|Hn]%elem_of_cons; [done|by apply Hnn].
Qed.

Lemma topic_loop_greedy (sentences : list string) :
  ∀ main_topics i root_children used,
    ∃ new_nodes,
      (topic_loop sentences i main_topics root_children used).1
      = root_children ++ new_nodes ∧
      used_repr used
      ⊆ used_repr (topic_loop sentences i main_topics root_children used).2 ∧
      (∀ n, n ∈ new_nodes → length (node_children n) < 3 →
            exhausted sentences
              (topic_loop sentences i main_topics root_children used).2) ∧
      (∀ j k nj nk, j < k → new_nodes !! j = Some nj →
                    new_nodes !! k = Some nk →
                    length (node_children nj) < 3 → node_children nk = []).
Proof.
  induction main_topics as [|t ts IH]; intros i nodes used.
  - exists []. simpl. rewrite app_nil_r.
    split_and!; [done|done|by intros n ?%elem_of_nil|by intros j k nj nk _ ?].
  - simpl.
    destruct (sub_loop i sentences [] (used_add t used) 0)
      as [children used1] eqn:Hs.
    pose proof (sub_loop_spec _ _ _ _ _ _ _ Hs)
      as (new & _ & _ & _ & _ & Hrepr & _).
    rewrite used_repr_add in Hrepr.
    destruct (IH (S i) (nodes ++ [mkNode (topic_id i) t children]) used1)
      as (nn & H1 & Hmono & Hfull & Hlater).
    exists (mkNode (topic_id i) t children :: nn). split_and!.
    + by rewrite H1, <- app_assoc.
    + etrans; [|exact Hmono]. rewrite Hrepr. set_solver.
    + intros n [->|Hn]%elem_of_cons Hlen.
      * cbn [node_children] in Hlen.
        assert (exhausted sentences used1) as Hex.
        { eapply sub_loop_exhaust; [exact Hs|]. simpl. lia. }
        intros x Hx. by apply Hmono, Hex.
      * by apply (Hfull n).
    + intros [|j] [|k] nj nk Hjk Hj Hk Hlen; simpl in Hj, Hk; try lia.
      * injection Hj as <-. cbn [node_children] in Hlen.
        assert (exhausted sentences used1) as Hex.
        { eapply sub_loop_exhaust; [exact Hs|]. simpl. lia. }
        destruct (topic_loop_exhausted sentences ts (S i)
                    (nodes ++ [mkNode (topic_id i) t children]) used1 Hex)
          as (nn' & H1' & Hempty).
        rewrite H1 in H1'. apply app_inv_head in H1'. subst nn'.
        apply Hempty. by eapply list_elem_of_lookup_2.
      * eapply (Hlater j k); [lia|done..].
Qed.

(** X2. [node-other] only appears when every topic node is full: if it is a
    child of the root, each topic node has exactly three children. *)
Theorem other_details_only_after_full_topics (text : string)
    (n other : Node) :
  let m := generate_mindmap_data U text in
  other ∈ mm_children m → node_id other = "node-other" →
  n ∈ mm_children m → node_id n ≠ "node-other" →
  length (node_children n) = 3.
Proof.
  intros m. unfold m, generate_mindmap_data.
  set (sentences := split_sentences text).
  set (main_topics := select_main_topics medical_keywords sentences).
  rewrite build_mindmap_children by apply select_main_topics_subseteq.
  intros Ho Hoid Hn Hnid.
  apply elem_of_app in Ho as [Ho|Ho];
    [by apply topic_nodes_not_other in Ho|].
  apply elem_of_app in Hn as [Hn|Hn];
    [|by apply elem_of_other_details in Hn as [? _]].
  apply elem_of_other_details in Ho as (_ & Hne & _).
  pose proof (topic_nodes_elem _ _ _ Hn) as (i & t & _ & _ & _ & Hle & _).
  destruct (decide (length (node_children n) < 3)) as [Hlt|]; [|lia].
  exfalso.
  unfold topic_nodes in Hn.
  destruct (topic_loop_greedy sentences main_topics 0 [] used_empty)
    as (nn & Hnn & _ & Hfull & _).
  simpl in Hnn. rewrite Hnn in Hn. pose proof (Hfull n Hn Hlt) as Hex.
  destruct (filter _ sentences) as [|r rs] eqn:Hf; [done|].
  assert (r ∈ r :: rs) as Hr by left. rewrite <- Hf in Hr.
  apply list_elem_of_filter in Hr as [Hout Hin].
  exfalso. by apply Hout, Hex.
Qed.

Lemma other_details_nil_of_exhausted (sentences main_topics : list string) :
  exhausted sentences (used_after_topics U sentences main_topics) →
  filter (λ s, s ∉ used_repr (used_after_topics U sentences main_topics))
    sentences = [].
Proof.
  intros Hex. destruct (filter _ sentences) as [|r rs] eqn:Hf; [done|].
  assert (r ∈ r :: rs) as Hr by left. rewrite <- Hf in Hr.
  apply list_elem_of_filter in Hr as [Hout Hin].
  exfalso. by apply Hout, Hex.
Qed.

(** X3. Greedy starvation: once a first-level node has fewer than three
    children, every later first-level node has none (and [node-other] is
    not among them). *)
Theorem later_nodes_starved (text : string) (j k : nat) (nj nk : Node) :
  let m := generate_mindmap_data U text in
  j < k →
  mm_children m !! j = Some nj → mm_children m !! k = Some nk →
  length (node_children nj) < 3 →
  node_children nk = [].
Proof.
  intros m. unfold m, generate_mindmap_data.
  set (sentences := split_sentences text).
  set (main_topics := select_main_topics medical_keywords sentences).
  rewrite build_mindmap_children by apply select_main_topics_subseteq.
  intros Hjk Hj Hk Hlen.
  unfold topic_nodes in *.
  destruct (topic_loop_greedy sentences main_topics 0 [] used_empty)
    as (nn & Hnn & _ & Hfull & Hlater).
  simpl in Hnn. rewrite Hnn in Hj, Hk.
  set (rest := other_details _) in *.
  assert (length rest ≤ 1) as Hrest.
  { unfold rest, other_details. destruct (filter _ _); simpl; lia. }
  destruct (decide (j < length nn)) as [Hjn|Hjn].
  - rewrite lookup_app_l in Hj by done.
    assert (rest = []) as Hnil.
    { unfold rest.
      rewrite (other_details_nil_of_exhausted sentences main_topics); [done|].
      apply (Hfull nj); [by eapply list_elem_of_lookup_2|done]. }
    rewrite Hnil, app_nil_r in Hk. by eapply (Hlater j k).
  - apply lookup_lt_Some in Hk. rewrite length_app in Hk. lia.
Qed.

End greedy.

Lemma other_details_only_after_full_topics_witness :
  length
    (node_children
       (mkNode "node-0" "Patient a."
          [mkLeaf "node-0-sub-0" "B."; mkLeaf "node-0-sub-1" "C.";
           mkLeaf "node-0-sub-2" "D."])) = 3.
Proof.
  apply (other_details_only_after_full_topics (U := gset string)
           "Patient a. B. C. D. E. E." _
           (mkNode "node-other" "Other Details"
              [mkLeaf "node-other-sub-0" "E.";
               mkLeaf "node-other-sub-1" "E."])).
  - vm_compute. right. left.
  - reflexivity.
  - vm_compute. left.
  - discriminate.
Defined.

Lemma later_nodes_starved_witness :
  node_children (mkNode "node-1" "Patient b." []) = [].
Proof.
  apply (later_nodes_starved (U := gset string) "Patient a. Patient b."
           0 1 (mkNode "node-0" "Patient a."
                  [mkLeaf "node-0-sub-0" "Patient b."])).
  - lia.
  - vm_compute. reflexivity.
  - vm_compute. reflexivity.
  - simpl. lia.
Defined.

(** ** More on topic selection *)

Lemma starts_with_app (k s : string) : starts_with k (k +:+ s) = true.
Proof.
  induction k as [|c k IH]; [done|].
  rewrite append_cons. simpl. by rewrite bool_decide_true, IH.
Qed.

Lemma starts_with_inv (k s : string) :
  starts_with k s = true → ∃ b, s = k +:+ b.
Proof.
  revert s. induction k as [|c k IH]; intros s Hs.
  - by exists s.
  - destruct s as [|d s]; [done|]. simpl in Hs.
    apply andb_true_iff in Hs as [->%bool_decide_eq_true Hs].
    destruct (IH s Hs) as (b & ->). by exists b.
Qed.

(** [k in s] holds exactly when [s] is [a + k + b] for some [a] and [b]. *)
Lemma contains_iff (k s : string) :
  contains k s = true ↔ ∃ a b, s = a +:+ k +:+ b.
Proof.
  split.
  - induction s as [|c s IH]; simpl.
    + rewrite orb_false_r. intros (b & ->)%starts_with_inv. by exists "", b.
    + intros [Hs|Hs]%orb_true_iff.
      * apply starts_with_inv in Hs as (b & ->). by exists "", b.
      * destruct (IH Hs) as (a & b & ->). by exists (String c a), b.
  - intros (a & b & ->). induction a as [|c a IH].
    + change ("" +:+ k +:+ b) with (k +:+ b).
      destruct (k +:+ b) eqn:E; simpl; rewrite <- ?E, starts_with_app; done.
    + rewrite append_cons. simpl. rewrite IH. apply orb_true_r.
Qed.

Lemma matches_any_iff (keywords : list string) (sentence : string) :
  matches_any keywords sentence = true ↔
  ∃ k a b, k ∈ keywords ∧ lower sentence = a +:+ k +:+ b.
Proof.
  unfold matches_any. rewrite existsb_exists. split.
  - intros (k & Hk%list_elem_of_In & (a & b & Hc)%contains_iff).
    by exists k, a, b.
  - intros (k & a & b & Hk & Hc). exists k. split.
    + by apply list_elem_of_In.
    + apply contains_iff. by exists a, b.
Qed.

Lemma sentence_loop_scan (keywords sentences : list string) :
  ∀ main_topics,
    NoDup main_topics →
    ∃ extra,
      sentence_loop keywords sentences main_topics = main_topics ++ extra ∧
      extra `sublist_of` sentences ∧
      NoDup (main_topics ++ extra) ∧
      ∀ s, s ∈ main_topics ++ extra ↔
           s ∈ main_topics ∨ (s ∈ sentences ∧ matches_any keywords s = true).
Proof.
  induction sentences as [|x ss IH]; intros mt Hnd; simpl.
  - exists []. rewrite app_nil_r. split_and!; [done|done|done|].
    intros s. split; [by left|]. intros [?|[?%elem_of_nil _]]; done.
  - rewrite keyword_loop_spec.
    destruct (matches_any keywords x) eqn:Hm; simpl.
    + unfold not_in. destruct (decide (x ∉ mt)) as [Hx|Hx].
      * rewrite bool_decide_true by done.
        destruct (IH (mt ++ [x])) as (extra & -> & Hsub & Hnd' & Hel).
        { apply NoDup_app. split_and!; [done| |apply NoDup_singleton].
          intros y Hy ->%list_elem_of_singleton. done. }
        exists (x :: extra). rewrite <- app_assoc in *. simpl in *.
        split_and!; [done|by constructor|done|].
        intros s. rewrite Hel.
        rewrite elem_of_app, list_elem_of_singleton, elem_of_cons.
        split; [|naive_solver]. intros [[?| ->]|[? ?]]; auto.
      * rewrite bool_decide_false by done.
        destruct (IH mt Hnd) as (extra & -> & Hsub & Hnd' & Hel).
        exists extra. split_and!; [done|by constructor|done|].
        intros s. rewrite Hel, elem_of_cons.
        split; [naive_solver|]. intros [?|[[-> |?] ?]]; auto.
        left. by apply dec_stable.
    + destruct (IH mt Hnd) as (extra & -> & Hsub & Hnd' & Hel).
      exists extra. split_and!; [done|by constructor|done|].
      intros s. rewrite Hel, elem_of_cons.
      split; [naive_solver|]. intros [?|[[-> |?] ?]]; auto. congruence.
Qed.

(** X6. When some sentence contains a keyword, the topics are exactly the
    sentences whose lower-cased form has a keyword as a contiguous
    substring (anywhere, also inside a longer word); each such sentence is
    a topic once, and the topics follow the order of the sentences. *)
Theorem keyword_topics (keywords sentences : list string) (s0 : string) :
  s0 ∈ sentences → matches_any keywords s0 = true →
  let main_topics := select_main_topics keywords sentences in
  NoDup main_topics ∧
  main_topics `sublist_of` sentences ∧
  ∀ s, s ∈ main_topics ↔
       s ∈ sentences ∧ ∃ k a b, k ∈ keywords ∧ lower s = a +:+ k +:+ b.
Proof.
  intros Hs0 Hm0 main_topics. unfold main_topics, select_main_topics.
  destruct (sentence_loop_scan keywords sentences [] (NoDup_nil_2))
    as (extra & Heq & Hsub & Hnd & Hel).
  rewrite Heq. simpl in *.
  assert (s0 ∈ extra) as Hin by (apply Hel; right; done).
  destruct extra as [|t ts]; [by apply elem_of_nil in Hin|].
  split_and!; [done|done|].
  intros s. rewrite Hel, <- matches_any_iff.
  split; [by intros [?%elem_of_nil|?]|by right].
Qed.

Lemma keyword_topics_witness :
  let main_topics :=
    select_main_topics medical_keywords
      ["Air conditioning helps."; "It was sunny."; "Air conditioning helps."]
  in
  NoDup main_topics ∧
  main_topics
    `sublist_of` ["Air conditioning helps."; "It was sunny.";
                  "Air conditioning helps."] ∧
  ∀ s, s ∈ main_topics ↔
       s ∈ ["Air conditioning helps."; "It was sunny.";
            "Air conditioning helps."] ∧
       ∃ k a b, k ∈ medical_keywords ∧ lower s = a +:+ k +:+ b.
Proof.
  apply (keyword_topics medical_keywords _ "Air conditioning helps.").
  - left.
  - vm_compute. reflexivity.
Defined.

(** X5. The root has no child only when there is no sentence: with at least
    one sentence there is at least one topic node. *)
Theorem no_children_iff_no_sentences (U : Type) `{!UsedSet U}
    (text : string) :
  mm_children (generate_mindmap_data U text) = [] ↔ split_sentences text = [].
Proof.
  split.
  - unfold generate_mindmap_data.
    set (sentences := split_sentences text).
    set (main_topics := select_main_topics medical_keywords sentences).
    rewrite build_mindmap_children by apply select_main_topics_subseteq.
    intros [Hnodes _]%app_eq_nil.
    destruct (topic_nodes_spec (U := U) sentences main_topics) as [Hlen _].
    rewrite Hnodes in Hlen. simpl in Hlen.
    unfold main_topics, select_main_topics in Hlen.
    destruct (sentence_loop medical_keywords sentences []) as [|t ts];
      destruct sentences as [|s ss]; done.
  - intros Hs. unfold generate_mindmap_data. rewrite Hs.
    unfold build_mindmap, add_other_details. simpl.
    by destruct (used_len used_empty <? 0).
Qed.

(** ** More on the splitter *)

Lemma non_space_app (a b : string) :
  non_space (a +:+ b) = non_space a +:+ non_space b.
Proof.
  induction a as [|c a IH]; [done|].
  rewrite append_cons. simpl. destruct (is_space c); [done|].
  by rewrite append_cons, IH.
Qed.

Lemma non_space_lstrip (s : string) : non_space (lstrip s) = non_space s.
Proof.
  induction s as [|c s IH]; simpl; [done|].
  destruct (is_space c) eqn:Hc; [done|]. simpl. by rewrite Hc.
Qed.

Lemma non_space_rstrip (s : string) : non_space (rstrip s) = non_space s.
Proof.
  induction s as [|c s IH]; simpl; [done|].
  destruct (is_space c) eqn:Hc; simpl.
  - destruct (rstrip s) eqn:Hr; simpl in *; [done|].
    by rewrite Hc.
  - by rewrite Hc, IH.
Qed.

Lemma non_space_strip (s : string) : non_space (strip s) = non_space s.
Proof. unfold strip. by rewrite non_space_rstrip, non_space_lstrip. Qed.

Lemma non_space_cons (c : ascii) (s : string) :
  non_space (String c s) = non_space (String c "") +:+ non_space s.
Proof. simpl. by destruct (is_space c). Qed.

Lemma non_space_spec_break (s : string) :
  non_space (concat_str (spec_break s)) = non_space s.
Proof.
  induction s as [|c s IH]; [done|].
  cbn [spec_break]. destruct (spec_break_cons s) as (p & ps & Hp).
  rewrite Hp in *. cbn [concat_str] in IH.
  rewrite (non_space_cons c s), <- IH.
  destruct (is_break_punct c && starts_with_space s); cbn [concat_str].
  - rewrite !non_space_app, non_space_lstrip. done.
  - rewrite append_cons, non_space_cons. done.
Qed.

Lemma non_space_sentences (pieces : list string) :
  non_space
    (concat_str (strip <$> filter (λ s, nonempty (strip s) = true) pieces))
  = non_space (concat_str pieces).
Proof.
  induction pieces as [|p ps IH]; [done|].
  rewrite filter_cons. cbn [concat_str]. rewrite non_space_app.
  destruct (decide (nonempty (strip p) = true)) as [Hp|Hp].
  - rewrite fmap_cons. cbn [concat_str].
    by rewrite non_space_app, non_space_strip, IH.
  - rewrite IH, <- (non_space_strip p).
    destruct (strip p); [done|]. by destruct Hp.
Qed.

(** X8. The splitter only removes whitespace: the sentences, put together,
    have the non-whitespace characters of the text, in the same order. *)
Theorem split_sentences_keeps_non_space (text : string) :
  non_space (concat_str (split_sentences text)) = non_space text.
Proof.
  unfold split_sentences.
  by rewrite non_space_sentences, re_split_spec, non_space_spec_break.
Qed.

Lemma spec_break_head_space (s p : string) (ps : list string) :
  spec_break s = p :: ps → starts_with_space p = starts_with_space s.
Proof.
  destruct s as [|c s]; simpl; [by intros [= <- _]|].
  destruct (spec_break_cons s) as (q & qs & ->).
  destruct (is_break_punct c && starts_with_space s); by intros [= <- _].
Qed.

Lemma no_break_lstrip (s : string) :
  no_break s = true → no_break (lstrip s) = true.
Proof.
  induction s as [|c s IH]; simpl; [done|].
  intros [Hc Hs]%andb_true_iff.
  destruct (is_space c); [auto|]. simpl. by rewrite Hc, Hs.
Qed.

Lemma rstrip_head_space (s : string) :
  starts_with_space (rstrip s) = true → starts_with_space s = true.
Proof.
  destruct s as [|c s]; simpl; [done|].
  by destruct (is_space c && negb (nonempty (rstrip s))).
Qed.

Lemma no_break_rstrip (s : string) :
  no_break s = true → no_break (rstrip s) = true.
Proof.
  induction s as [|c s IH]; simpl; [done|].
  intros [Hc Hs]%andb_true_iff.
  destruct (is_space c && negb (nonempty (rstrip s))); [done|].
  simpl. rewrite IH by done. rewrite andb_true_r.
  destruct (is_break_punct c); [|done]. simpl in *.
  destruct (starts_with_space (rstrip s)) eqn:E; [|done].
  apply rstrip_head_space in E. by rewrite E in Hc.
Qed.

Lemma no_break_strip (s : string) :
  no_break s = true → no_break (strip s) = true.
Proof. intros Hs. by apply no_break_rstrip, no_break_lstrip. Qed.

Lemma spec_break_no_break (s : string) :
  Forall (λ p, no_break p = true) (spec_break s).
Proof.
  induction s as [|c s IH]; [by repeat constructor|].
  cbn [spec_break]. destruct (spec_break_cons s) as (p & ps & Hp).
  rewrite Hp in *. apply Forall_cons in IH as [Hp' Hps].
  destruct (is_break_punct c && starts_with_space s) eqn:E.
  - repeat constructor; [|by apply no_break_lstrip|done].
    simpl. by rewrite andb_false_r.
  - constructor; [|done]. simpl.
    by rewrite (spec_break_head_space s p ps Hp), E, Hp'.
Qed.

Lemma spec_break_of_no_break (s : string) :
  no_break s = true → spec_break s = [s].
Proof.
  induction s as [|c s IH]; [done|]. simpl.
  intros [Hc Hs]%andb_true_iff. rewrite IH by done.
  apply negb_true_iff in Hc. by rewrite Hc.
Qed.

(** X9. A sentence is not split any further: splitting a sentence that the
    splitter returned gives back that sentence alone. *)
Theorem split_sentences_idempotent (text s : string) :
  s ∈ split_sentences text → split_sentences s = [s].
Proof.
  unfold split_sentences at 1. rewrite re_split_spec.
  intros (p & -> & [Hne Hp]%list_elem_of_filter)%list_elem_of_fmap.
  pose proof (spec_break_no_break text) as Hall.
  rewrite Forall_forall in Hall. apply Hall, no_break_strip in Hp.
  unfold split_sentences. rewrite re_split_spec, spec_break_of_no_break by done.
  rewrite filter_cons, strip_idemp. simpl in Hne.
  rewrite decide_True by done.
  rewrite fmap_cons, strip_idemp. done.
Qed.

Lemma split_sentences_idempotent_witness :
  split_sentences "It affects the liver." = ["It affects the liver."].
Proof.
  apply (split_sentences_idempotent example_summary).
  vm_compute. right. left.
Defined.

(** ** The upload whitelist *)

Lemma contains_dot_cons (c : ascii) (s : string) :
  contains "." (String c s) = bool_decide (c = "."%char) || contains "." s.
Proof.
  simpl. rewrite andb_true_r. f_equal.
  apply bool_decide_ext. split; congruence.
Qed.

Lemma rsplit1_no_sep (s : string) :
  contains "." s = false → rsplit1 "." s = [s].
Proof.
  induction s as [|c s IH]; [done|].
  rewrite contains_dot_cons. intros [Hc Hs]%orb_false_iff.
  simpl. by rewrite IH, Hc.
Qed.

Lemma rsplit1_last (base ext : string) :
  contains "." ext = false →
  rsplit1 "." (base +:+ "." +:+ ext) = [base; ext].
Proof.
  intros Hext. induction base as [|c base IH].
  - change ("" +:+ "." +:+ ext) with (String "." ext).
    simpl. by rewrite rsplit1_no_sep.
  - rewrite append_cons. simpl. by rewrite IH.
Qed.

Lemma contains_dot_app (base ext : string) :
  contains "." (base +:+ "." +:+ ext) = true.
Proof. apply contains_iff. by exists base, ext. Qed.

Lemma last_dot_split (s : string) :
  contains "." s = true →
  ∃ base ext, s = base +:+ "." +:+ ext ∧ contains "." ext = false.
Proof.
  induction s as [|c s IH]; [done|].
  destruct (contains "." s) eqn:Hs.
  - intros _. destruct (IH eq_refl) as (base & ext & -> & Hext).
    by exists (String c base), ext.
  - rewrite contains_dot_cons, Hs, orb_false_r.
    intros ->%bool_decide_eq_true. by exists "", s.
Qed.

Lemma allowed_file_app (base ext : string) :
  contains "." ext = false →
  allowed_file (base +:+ "." +:+ ext)
  = Some (bool_decide (lower ext ∈ ALLOWED_EXTENSIONS)).
Proof.
  intros Hext. unfold allowed_file.
  by rewrite contains_dot_app, rsplit1_last.
Qed.

(** X16. Only the text behind the last dot counts, in any letter case: a name
    [base.ext] with a dot-free [ext] is allowed exactly when the
    lower-cased [ext] is one of txt, pdf and docx. *)
Theorem allowed_file_last_extension (base ext : string) :
  contains "." ext = false →
  allowed_file (base +:+ "." +:+ ext)
  = Some (bool_decide (lower ext ∈ ALLOWED_EXTENSIONS)).
Proof. apply allowed_file_app. Qed.

Lemma allowed_file_last_extension_witness :
  allowed_file "scan.txt.PDF" = Some true ∧
  allowed_file "notes.pdf.exe" = Some false.
Proof.
  split.
  - apply (allowed_file_last_extension "scan.txt" "PDF"). reflexivity.
  - apply (allowed_file_last_extension "notes.pdf" "exe"). reflexivity.
Defined.

(** X17. [allowed_file] never fails: the guard ['.' in filename] makes the
    index [[1]] valid. It answers [True] only for a name with a dot whose
    last extension is in the whitelist; a name without a dot, or ending in
    a dot, is refused. *)
Theorem allowed_file_total (filename : string) :
  ∃ b, allowed_file filename = Some b ∧
       (b = true ↔
        ∃ base ext, filename = base +:+ "." +:+ ext ∧
                    contains "." ext = false ∧
                    lower ext ∈ ALLOWED_EXTENSIONS).
Proof.
  destruct (contains "." filename) eqn:Hdot.
  - destruct (last_dot_split filename Hdot) as (base & ext & -> & Hext).
    rewrite allowed_file_app by done.
    eexists. split; [done|]. rewrite bool_decide_eq_true. split.
    + intros Hin. by exists base, ext.
    + intros (base' & ext' & Heq & Hext' & Hin).
      assert ([base; ext] = [base'; ext']) as [= _ ->].
      { rewrite <- (rsplit1_last base ext), <- (rsplit1_last base' ext') by done.
        by rewrite Heq. }
      done.
  - exists false. unfold allowed_file. rewrite Hdot. split; [done|].
    split; [done|]. intros (base & ext & -> & _).
    by rewrite contains_dot_app in Hdot.
Qed.

(** ** Chunking *)

Lemma concat_str_app (l1 l2 : list string) :
  concat_str (l1 ++ l2) = concat_str l1 +:+ concat_str l2.
Proof.
  induction l1 as [|x l1 IH]; [done|].
  simpl. by rewrite IH, append_assoc.
Qed.

Lemma str_take_0 (s : string) : str_take 0 s = "".
Proof. by destruct s. Qed.

Lemma str_drop_0 (s : string) : str_drop 0 s = s.
Proof. by destruct s. Qed.

Lemma str_take_add (a b : nat) (s : string) :
  str_take (a + b) s = str_take a s +:+ str_take b (str_drop a s).
Proof.
  revert s. induction a as [|a IH]; intros s.
  - by rewrite str_take_0, str_drop_0.
  - destruct s as [|c s]; simpl; [by destruct b|].
    by rewrite IH, append_cons.
Qed.

Lemma str_take_all (n : nat) (s : string) :
  String.length s ≤ n → str_take n s = s.
Proof.
  revert n. induction s as [|c s IH]; intros n Hn; [by destruct n|].
  destruct n as [|n]; simpl in *; [lia|]. rewrite IH; [done|lia].
Qed.

Lemma str_take_length (n : nat) (s : string) :
  String.length (str_take n s) = n `min` String.length s.
Proof.
  revert s. induction n as [|n IH]; intros s; [by destruct s|].
  destruct s as [|c s]; simpl; [done|]. by rewrite IH.
Qed.

Lemma str_drop_length (n : nat) (s : string) :
  String.length (str_drop n s) = String.length s - n.
Proof.
  revert s. induction n as [|n IH]; intros s; [by destruct s; simpl; lia|].
  destruct s as [|c s]; simpl; [done|]. by rewrite IH.
Qed.

Lemma slice_length (i n : nat) (s : string) :
  String.length (slice i (i + n) s) = n `min` (String.length s - i).
Proof.
  unfold slice. rewrite str_take_length, str_drop_length.
  by replace (i + n - i) with n by lia.
Qed.

Lemma chunk_count_bounds (len n : nat) :
  0 < n →
  let m := (len + n - 1) / n in
  len ≤ m * n ∧ (0 < len → (m - 1) * n < len ∧ 0 < m).
Proof.
  intros Hn m.
  pose proof (Nat.div_mod_eq (len + n - 1) n) as Hdm.
  pose proof (Nat.mod_upper_bound (len + n - 1) n ltac:(lia)) as Hmod.
  fold m in Hdm. nia.
Qed.

Lemma concat_slices (n : nat) (s : string) (m : nat) :
  concat_str ((λ k, slice (k * n) (k * n + n) s) <$> seq 0 m)
  = str_take (m * n) s.
Proof.
  induction m as [|m IH]; [by rewrite str_take_0|].
  rewrite seq_S, fmap_app, concat_str_app, IH. simpl.
  rewrite append_nil_r. unfold slice.
  replace (m * n + n - m * n) with n by lia.
  replace (n + m * n) with (m * n + n) by lia.
  by rewrite str_take_add.
Qed.

Lemma chunks_of_alt (n : nat) (text : string) :
  chunks_of n text
  = (λ k, slice (k * n) (k * n + n) text)
    <$> seq 0 ((String.length text + n - 1) / n).
Proof.
  unfold chunks_of, range_step. by rewrite <- list_fmap_compose.
Qed.

Lemma chunks_of_partition (n : nat) (text : string) :
  0 < n →
  concat_str (chunks_of n text) = text ∧
  (∀ k c, chunks_of n text !! k = Some c →
          0 < String.length c ≤ n ∧
          (S k < length (chunks_of n text) → String.length c = n)).
Proof.
  intros Hn. rewrite chunks_of_alt.
  pose proof (chunk_count_bounds (String.length text) n Hn) as Hb.
  set (m := (String.length text + n - 1) / n) in *. simpl in Hb.
  destruct Hb as [Hup Hlow].
  split.
  - rewrite concat_slices. by apply str_take_all.
  - intros k c Hk. rewrite list_lookup_fmap in Hk.
    destruct (seq 0 m !! k) as [k'|] eqn:Hseq; [|done].
    apply lookup_seq in Hseq as [-> Hkm]. simpl in Hk.
    injection Hk as <-. rewrite slice_length, length_fmap, length_seq.
    assert (0 < String.length text) as Hlen.
    { destruct (String.length text); [|lia].
      unfold m in Hkm. simpl in Hkm.
      rewrite Nat.div_small in Hkm by lia. lia. }
    destruct (Hlow Hlen) as [Hlast Hm]. split; [nia|]. intros Hk. nia.
Qed.

Lemma max_chunk_length_pos : 0 < max_chunk_length.
Proof. unfold max_chunk_length. lia. Qed.

(** X11. The chunks cut the text into consecutive pieces: concatenated they are
    the text again, none is empty, each has at most 1024 characters and
    all but the last have exactly 1024. *)
Theorem chunks_partition (text : string) :
  concat_str (chunks text) = text ∧
  (∀ k c, chunks text !! k = Some c →
          0 < String.length c ≤ max_chunk_length ∧
          (S k < length (chunks text) →
           String.length c = max_chunk_length)).
Proof. apply chunks_of_partition, max_chunk_length_pos. Qed.

Lemma chunks_elem_length (text c : string) :
  c ∈ chunks text → 0 < String.length c ≤ max_chunk_length.
Proof.
  intros (k & Hk)%list_elem_of_lookup.
  destruct (chunks_of_partition max_chunk_length text max_chunk_length_pos)
    as [_ Hc].
  by apply (Hc k c).
Qed.

Lemma chunks_short (text : string) :
  0 < String.length text ≤ max_chunk_length → chunks text = [text].
Proof.
  intros [Hpos Hle]. unfold chunks. rewrite chunks_of_alt.
  pose proof (chunk_count_bounds (String.length text) max_chunk_length
                max_chunk_length_pos) as Hb.
  generalize dependent max_chunk_length. intros n Hn Hb.
  set (m := (String.length text + n - 1) / n) in *. simpl in Hb.
  destruct Hb as [Hup Hlow]. destruct (Hlow Hpos) as [Hlast Hm].
  assert (m = 1) as -> by nia.
  simpl. unfold slice. rewrite str_drop_0, Nat.sub_0_r.
  by rewrite str_take_all.
Qed.

Lemma all_space_str_take (n : nat) (s : string) :
  all_space s = true → all_space (str_take n s) = true.
Proof.
  revert s. induction n as [|n IH]; intros s Hs; [by destruct s|].
  destruct s as [|c s]; [done|]. simpl in *.
  apply andb_true_iff in Hs as [-> Hs]. by apply IH.
Qed.

Lemma all_space_str_drop (n : nat) (s : string) :
  all_space s = true → all_space (str_drop n s) = true.
Proof.
  revert s. induction n as [|n IH]; intros s Hs; [by destruct s|].
  destruct s as [|c s]; [done|]. simpl in *.
  apply andb_true_iff in Hs as [_ Hs]. by apply IH.
Qed.

Lemma strip_all_space (s : string) : all_space s = true → strip s = "".
Proof. intros Hs. unfold strip. by rewrite lstrip_all_space. Qed.

Lemma chunks_all_space (text c : string) :
  all_space text = true → c ∈ chunks text → all_space c = true.
Proof.
  intros Hs. unfold chunks, chunks_of.
  intros (i & -> & _)%list_elem_of_fmap.
  by apply all_space_str_take, all_space_str_drop.
Qed.

Lemma build_mindmap_no_sentences (U : Type) `{!UsedSet U} :
  build_mindmap U [] [] = mkMindmap "root" "Medical Document Overview" [].
Proof.
  unfold build_mindmap, add_other_details. simpl.
  by destruct (used_len used_empty <? 0).
Qed.

(** ** The summarisation step and the whole function *)

Section summarisation_props.
Context {U : Type} `{!UsedSet U}.

Lemma summarize_chunks_blank (summarizer : string → result string)
    (cs summaries : list string) :
  (∀ c, c ∈ cs → all_space c = true) →
  summarize_chunks summarizer cs summaries = Ok summaries.
Proof.
  revert summaries. induction cs as [|c cs IH]; intros acc Hcs; [done|].
  simpl. rewrite strip_all_space by (apply Hcs; left). simpl.
  apply IH. intros c' Hc'. apply Hcs. by right.
Qed.

Lemma summarize_chunks_ext (f g : string → result string)
    (cs summaries : list string) :
  (∀ c, c ∈ cs → nonempty (strip c) = true → f c = g c) →
  summarize_chunks f cs summaries = summarize_chunks g cs summaries.
Proof.
  revert summaries. induction cs as [|c cs IH]; intros acc Hcs; [done|].
  simpl. destruct (nonempty (strip c)) eqn:Hc.
  - rewrite <- (Hcs c) by (done || left).
    destruct (f c); [|done]. apply IH. intros c' Hc'. apply Hcs. by right.
  - apply IH. intros c' Hc'. apply Hcs. by right.
Qed.

Lemma summarize_chunks_ok (summarizer : string → result string)
    (cs summaries : list string) :
  (∃ l, summarize_chunks summarizer cs summaries = Ok l) ↔
  (∀ c, c ∈ cs → nonempty (strip c) = true → ∃ s, summarizer c = Ok s).
Proof.
  revert summaries. induction cs as [|c cs IH]; intros acc; simpl.
  - split; [by intros _ c ?%elem_of_nil|by exists acc].
  - destruct (nonempty (strip c)) eqn:Hc.
    + destruct (summarizer c) as [s|e] eqn:Hs.
      * rewrite IH. split.
        -- intros Hcs c' [->|Hc']%elem_of_cons ?; [by exists s|by apply Hcs].
        -- intros Hcs c' Hc'. apply Hcs. by right.
      * split; [by intros [l ?]|].
        intros Hcs. destruct (Hcs c) as [s Hs']; [by left|done|congruence].
    + rewrite IH. split.
      * intros Hcs c' [->|Hc']%elem_of_cons ?; [congruence|by apply Hcs].
      * intros Hcs c' Hc'. apply Hcs. by right.
Qed.

(** X12. A text of whitespace only (or an empty one) is never given to the
    model: whatever the model would do, the result is the root alone. *)
Theorem blank_text_root_only (summarizer : string → result string)
    (text : string) :
  all_space text = true →
  generate_mindmap_data_of_text U summarizer text
  = Ok (mkMindmap "root" "Medical Document Overview" []).
Proof.
  intros Hs. unfold generate_mindmap_data_of_text, full_summary_of.
  rewrite summarize_chunks_blank by (intros c; by apply chunks_all_space).
  cbn [join]. exact (f_equal Ok (build_mindmap_no_sentences U)).
Qed.

(** X13. The model only ever sees chunks that are not blank and have between 1
    and 1024 characters: two models that agree on those give the same
    result on every text. *)
Theorem summarizer_only_sees_chunks (f g : string → result string)
    (text : string) :
  (∀ c, 0 < String.length c ≤ max_chunk_length →
        nonempty (strip c) = true → f c = g c) →
  generate_mindmap_data_of_text U f text
  = generate_mindmap_data_of_text U g text.
Proof.
  intros Hfg. unfold generate_mindmap_data_of_text, full_summary_of.
  rewrite (summarize_chunks_ext f g); [done|].
  intros c Hc Hne. apply Hfg; [|done]. by eapply chunks_elem_length.
Qed.

(** X14. A text of at most 1024 characters that is not blank is summarised in
    one call, and the tree is built from that summary. *)
Theorem short_text_one_call (summarizer : string → result string)
    (text : string) :
  0 < String.length text ≤ max_chunk_length →
  nonempty (strip text) = true →
  generate_mindmap_data_of_text U summarizer text
  = match summarizer text with
    | Ok summary => Ok (generate_mindmap_data U summary)
    | Raise e => Raise e
    end.
Proof.
  intros Hlen Hne. unfold generate_mindmap_data_of_text, full_summary_of.
  rewrite chunks_short by done. simpl. rewrite Hne.
  by destruct (summarizer text).
Qed.

(** X15. The function returns a tree exactly when the model succeeds on every
    chunk that is not blank; an exception on one of them is the outcome of
    the whole call. *)
Theorem generate_ok_iff_summaries_ok (summarizer : string → result string)
    (text : string) :
  (∃ m, generate_mindmap_data_of_text U summarizer text = Ok m) ↔
  (∀ c, c ∈ chunks text → nonempty (strip c) = true →
        ∃ s, summarizer c = Ok s).
Proof.
  rewrite <- (summarize_chunks_ok summarizer (chunks text) []).
  unfold generate_mindmap_data_of_text, full_summary_of.
  destruct (summarize_chunks summarizer (chunks text) []) as [l|e].
  - split; intros _; by eexists.
  - split; by intros [? ?].
Qed.

End summarisation_props.

Lemma blank_text_root_only_witness :
  generate_mindmap_data_of_text (gset string) (λ _, Raise "model failure")
    "     "
  = Ok (mkMindmap "root" "Medical Document Overview" []).
Proof. apply blank_text_root_only. reflexivity. Defined.

Lemma summarizer_only_sees_chunks_witness :
  generate_mindmap_data_of_text (gset string) Ok example_summary
  = generate_mindmap_data_of_text (gset string)
      (λ c, if String.length c <=? max_chunk_length
            then Ok c else Raise "too long")
      example_summary.
Proof.
  apply summarizer_only_sees_chunks.
  intros c [_ Hle] _. apply Nat.leb_le in Hle. by rewrite Hle.
Defined.

Lemma short_text_one_call_witness :
  generate_mindmap_data_of_text (gset string) Ok example_summary
  = Ok (generate_mindmap_data (gset string) example_summary).
Proof.
  apply (short_text_one_call Ok example_summary).
  - vm_compute. lia.
  - reflexivity.
Defined.

(** ** Text extraction and the upload endpoint *)

(** The path an upload is written to: the client's filename behind
    [uploads/], or the filename itself when it starts with [/]. *)
Lemma upload_path (filename : string) :
  os_path_join UPLOAD_FOLDER filename
  = if starts_with "/" filename then filename else "uploads/" +:+ filename.
Proof. unfold os_path_join. by destruct (starts_with "/" filename). Qed.

Lemma allowed_extension_cases (ext : string) :
  ext ∈ ALLOWED_EXTENSIONS ↔ ext = "txt" ∨ ext = "pdf" ∨ ext = "docx".
Proof. unfold ALLOWED_EXTENSIONS. set_solver. Qed.

Section endpoint_props.
Context {U : Type} `{!UsedSet U}.
Variable save_error : string → option string.
Variable read_text : string → result string.
Variable summarizer : string → result string.

Local Abbreviation handler :=
  (handle_files U save_error read_text summarizer).
Local Abbreviation process := (process_upload U read_text summarizer).

Lemma handler_with_extension (base ext : string) :
  contains "." ext = false →
  let filename := base +:+ "." +:+ ext in
  let filepath := os_path_join UPLOAD_FOLDER filename in
  handler (Some filename)
  = if bool_decide (lower ext ∈ ALLOWED_EXTENSIONS) then
      match save_error filepath with
      | Some e => ([filepath], Raise e)
      | None => ([filepath], Ok (process filepath (lower ext)))
      end
    else ([], Ok not_allowed_response).
Proof.
  intros Hext filename filepath. unfold handle_files.
  fold filename. fold filepath.
  assert (nonempty filename = true) as Hne.
  { unfold filename. destruct base; reflexivity. }
  rewrite bool_decide_false by (intros E; by rewrite E in Hne).
  rewrite Hne. unfold filename at 1 2.
  rewrite allowed_file_app, rsplit1_last by done. simpl.
  by destruct (bool_decide (lower ext ∈ ALLOWED_EXTENSIONS)).
Qed.

Lemma handler_without_extension (filename : string) :
  filename ≠ "" → contains "." filename = false →
  handler (Some filename) = ([], Ok not_allowed_response).
Proof.
  intros Hne Hdot. unfold handle_files, allowed_file.
  rewrite bool_decide_false, Hdot by done. by destruct filename.
Qed.

Lemma process_txt (filepath : string) :
  process filepath "txt"
  = match read_text filepath with
    | Raise e =>
        mkResponse (ErrorBody ("An error occurred during processing: " +:+ e))
          500
    | Ok text_content =>
        if negb (nonempty text_content)
           || contains "not implemented" text_content
        then mkResponse (ErrorBody text_content) 400
        else if String.length text_content <? 50 then
          mkResponse
            (ErrorBody "Document content is too short for meaningful analysis.")
            400
        else
          match generate_mindmap_data_of_text U summarizer text_content with
          | Ok mindmap_data =>
              mkResponse
                (MindmapBody "Mindmap generated successfully" mindmap_data)
                200
          | Raise e =>
              mkResponse
                (ErrorBody ("An error occurred during processing: " +:+ e))
                500
          end
    end.
Proof. reflexivity. Qed.

Lemma process_pdf (filepath : string) :
  process filepath "pdf"
  = mkResponse
      (ErrorBody
         "PDF text extraction not implemented in this demo. Please use .txt")
      400.
Proof. reflexivity. Qed.

Lemma process_docx (filepath : string) :
  process filepath "docx"
  = mkResponse
      (ErrorBody
         "DOCX text extraction not implemented in this demo. Please use .txt")
      400.
Proof. reflexivity. Qed.

(** Once [request.files] is obtained, [file.save] is called exactly for
    the uploads whose name is allowed, before the content is looked at. *)
Lemma handle_files_saved (document : option string) :
  (handler document).1
  = match document with
    | Some filename =>
        if bool_decide (allowed_file filename = Some true) then
          [if starts_with "/" filename then filename
           else "uploads/" +:+ filename]
        else []
    | None => []
    end.
Proof.
  destruct document as [filename|]; [|done].
  destruct (decide (filename = "")) as [->|Hne]; [done|].
  destruct (contains "." filename) eqn:Hdot.
  - destruct (last_dot_split filename Hdot) as (base & ext & -> & Hext).
    rewrite handler_with_extension, allowed_file_app by done.
    rewrite <- upload_path.
    destruct (bool_decide (lower ext ∈ ALLOWED_EXTENSIONS)) eqn:Hin.
    + rewrite bool_decide_true by done. by destruct (save_error _).
    + by rewrite bool_decide_false by done.
  - rewrite handler_without_extension by done.
    unfold allowed_file. rewrite Hdot. by rewrite bool_decide_false by done.
Qed.

(** Once [request.files] is obtained, the answer is 200 exactly for a txt
    upload that could be saved and read, whose text passes the two checks
    and on which the model did not fail. *)
Lemma handle_files_success_iff (document : option string) (r : Response) :
  (handler document).2 = Ok r ∧ status r = 200 ↔
  ∃ base ext text_content mindmap,
    let filepath := os_path_join UPLOAD_FOLDER (base +:+ "." +:+ ext) in
    document = Some (base +:+ "." +:+ ext) ∧
    contains "." ext = false ∧ lower ext = "txt" ∧
    save_error filepath = None ∧
    read_text filepath = Ok text_content ∧
    contains "not implemented" text_content = false ∧
    50 ≤ String.length text_content ∧
    generate_mindmap_data_of_text U summarizer text_content = Ok mindmap ∧
    r = mkResponse (MindmapBody "Mindmap generated successfully" mindmap) 200.
Proof.
  split.
  - intros [Hr Hst].
    destruct document as [filename|]; [|by injection Hr as <-].
    destruct (decide (filename = "")) as [->|Hne]; [by injection Hr as <-|].
    destruct (contains "." filename) eqn:Hdot;
      [|rewrite handler_without_extension in Hr by done;
        by injection Hr as <-].
    destruct (last_dot_split filename Hdot) as (base & ext & -> & Hext).
    rewrite handler_with_extension in Hr by done.
    destruct (bool_decide (lower ext ∈ ALLOWED_EXTENSIONS)) eqn:Hin;
      [|by injection Hr as <-].
    apply bool_decide_eq_true, allowed_extension_cases in Hin.
    destruct (save_error _) as [e|] eqn:Hsave; [done|].
    simpl in Hr. injection Hr as <-.
    destruct Hin as [Htxt|[Hpdf|Hdocx]];
      [|by rewrite Hpdf, process_pdf in Hst
       |by rewrite Hdocx, process_docx in Hst].
    rewrite Htxt, process_txt in Hst |- *.
    destruct (read_text _) as [text|e] eqn:Hread; [|done].
    destruct (negb (nonempty text) || contains "not implemented" text)
      eqn:Hbad; [done|].
    apply orb_false_iff in Hbad as [_ Hni].
    destruct (String.length text <? 50) eqn:Hlen; [done|].
    apply Nat.ltb_ge in Hlen.
    destruct (generate_mindmap_data_of_text U summarizer text)
      as [m|e] eqn:Hgen; [|done].
    by exists base, ext, text, m.
  - intros (base & ext & text & m & Hdoc & Hext & Htxt & Hsave & Hread
            & Hni & Hlen & Hgen & ->).
    subst document. rewrite handler_with_extension by done.
    rewrite Htxt, bool_decide_true by (by apply allowed_extension_cases; left).
    rewrite Hsave. simpl. rewrite process_txt, Hread, Hni.
    assert (nonempty text = true) as -> by (destruct text; simpl in *; [lia|done]).
    simpl. apply Nat.ltb_ge in Hlen. by rewrite Hlen, Hgen.
Qed.

(** Once [request.files] is obtained and the file saved, a pdf or docx
    upload is answered 400 with the placeholder message. *)
Lemma handle_files_pdf_docx (base ext : string) :
  contains "." ext = false →
  lower ext = "pdf" ∨ lower ext = "docx" →
  save_error (os_path_join UPLOAD_FOLDER (base +:+ "." +:+ ext)) = None →
  (handler (Some (base +:+ "." +:+ ext))).2
  = Ok (mkResponse
          (ErrorBody
             ((if bool_decide (lower ext = "pdf") then "PDF" else "DOCX")
              +:+ " text extraction not implemented in this demo. Please use .txt"))
          400).
Proof.
  intros Hext Hfmt Hsave. rewrite handler_with_extension by done.
  rewrite bool_decide_true by (apply allowed_extension_cases; tauto).
  rewrite Hsave. simpl. f_equal.
  destruct Hfmt as [->| ->]; [apply process_pdf|apply process_docx].
Qed.

(** Once [request.files] is obtained, a text upload that is empty or
    contains "not implemented" is answered 400 with its whole text. *)
Lemma handle_files_text_echoed (base ext text_content : string) :
  contains "." ext = false → lower ext = "txt" →
  let filepath := os_path_join UPLOAD_FOLDER (base +:+ "." +:+ ext) in
  save_error filepath = None →
  read_text filepath = Ok text_content →
  text_content = "" ∨ contains "not implemented" text_content = true →
  (handler (Some (base +:+ "." +:+ ext))).2
  = Ok (mkResponse (ErrorBody text_content) 400).
Proof.
  intros Hext Htxt filepath Hsave Hread Hbad.
  rewrite handler_with_extension by done.
  rewrite Htxt, bool_decide_true by (by apply allowed_extension_cases; left).
  fold filepath. rewrite Hsave. simpl. rewrite process_txt. fold filepath.
  rewrite Hread.
  by destruct Hbad as [->| ->]; [|rewrite orb_true_r].
Qed.

End endpoint_props.

(** [extract_text_from_file] compares the extension as it is given: only
    for exactly "txt" is the file read; "pdf" and "docx" give their
    placeholder and every other extension (also "TXT") gives the empty
    text, whatever the file system holds. *)
Theorem extract_text_reads_only_txt (read1 read2 : string → result string)
    (filepath file_extension : string) :
  file_extension ≠ "txt" →
  extract_text_from_file read1 filepath file_extension
  = extract_text_from_file read2 filepath file_extension ∧
  (file_extension ∉ ALLOWED_EXTENSIONS →
   extract_text_from_file read1 filepath file_extension = Ok "").
Proof.
  intros Htxt. unfold extract_text_from_file.
  rewrite !bool_decide_false by done. split; [done|].
  rewrite allowed_extension_cases. intros Hno.
  by rewrite !bool_decide_false by tauto.
Qed.

Lemma extract_text_reads_only_txt_witness :
  extract_text_from_file (λ _, Ok "content") "uploads/a.TXT" "TXT"
  = extract_text_from_file (λ _, Raise "missing") "uploads/a.TXT" "TXT" ∧
  extract_text_from_file (λ _, Ok "content") "uploads/a.TXT" "TXT" = Ok "".
Proof.
  destruct (extract_text_reads_only_txt (λ _, Ok "content")
              (λ _, Raise "missing") "uploads/a.TXT" "TXT") as [H1 H2].
  - discriminate.
  - split; [exact H1|]. apply H2.
    apply (bool_decide_unpack _). vm_compute. exact I.
Defined.

(** ** The identifiers are unique *)

Lemma pretty_N_char_digit (x : N) : is_digit (pretty_N_char x) = true.
Proof. unfold pretty_N_char. by repeat case_match. Qed.

Lemma pretty_N_go_digits (x : N) (s : string) :
  all_digits s = true → all_digits (pretty_N_go x s) = true.
Proof.
  revert s. induction (N.lt_wf_0 x) as [x _ IH]; intros s Hs.
  assert (x = 0 ∨ 0 < x)%N as [->|Hx] by lia.
  - by rewrite pretty_N_go_0.
  - rewrite pretty_N_go_step by done. apply IH.
    + by apply N.div_lt.
    + simpl. by rewrite pretty_N_char_digit.
Qed.

Lemma pretty_N_go_nonempty (x : N) (s : string) :
  s ≠ "" → pretty_N_go x s ≠ "".
Proof.
  revert s. induction (N.lt_wf_0 x) as [x _ IH]; intros s Hs.
  assert (x = 0 ∨ 0 < x)%N as [->|Hx] by lia.
  - by rewrite pretty_N_go_0.
  - rewrite pretty_N_go_step by done. apply IH; [by apply N.div_lt|done].
Qed.

Lemma pretty_nat_digits (n : nat) :
  all_digits (pretty n) = true ∧ pretty n ≠ "".
Proof.
  unfold pretty, pretty_nat, pretty, pretty_N.
  destruct (decide (N.of_nat n = 0%N)) as [|Hn]; [done|]. split.
  - by apply pretty_N_go_digits.
  - rewrite pretty_N_go_step by lia. by apply pretty_N_go_nonempty.
Qed.

Lemma digits_prefix_app (a r : string) :
  all_digits a = true → digits_prefix r = "" →
  digits_prefix (a +:+ r) = a.
Proof.
  intros Ha Hr. induction a as [|c a IH]; [done|].
  simpl in Ha. apply andb_true_iff in Ha as [Hc Ha].
  rewrite append_cons. simpl. by rewrite Hc, IH.
Qed.

Lemma id_owner_topic (i : nat) : id_owner (topic_id i) = pretty i.
Proof.
  unfold id_owner, topic_id.
  change (str_drop 5 ("node-" +:+ pretty i)) with (pretty i).
  rewrite <- (append_nil_r (pretty i)) at 1.
  apply digits_prefix_app; [apply pretty_nat_digits|done].
Qed.

Lemma id_owner_sub (i j : nat) : id_owner (sub_id i j) = pretty i.
Proof.
  unfold id_owner, sub_id.
  change (str_drop 5 ("node-" +:+ ?x)) with x.
  apply digits_prefix_app; [apply pretty_nat_digits|done].
Qed.

Lemma id_owner_other_sub (k : nat) : id_owner (other_sub_id k) = "".
Proof. reflexivity. Qed.

Lemma topic_id_inj (i j : nat) : topic_id i = topic_id j → i = j.
Proof. unfold topic_id. intros Heq%append_inj_l. by apply (inj pretty). Qed.

Lemma sub_id_inj (i j j' : nat) : sub_id i j = sub_id i j' → j = j'.
Proof.
  unfold sub_id.
  intros Heq%append_inj_l%append_inj_l%append_inj_l. by apply (inj pretty).
Qed.

Lemma topic_id_not_sub (i j : nat) : topic_id i ≠ sub_id i j.
Proof.
  unfold topic_id, sub_id. intros Heq%append_inj_l.
  rewrite <- (append_nil_r (pretty i)) in Heq at 1.
  by apply append_inj_l in Heq.
Qed.

Lemma other_id_not_other_sub (k : nat) : "node-other" ≠ other_sub_id k.
Proof.
  unfold other_sub_id.
  change "node-other" with ("node-other" +:+ "").
  change ("node-other-sub-" +:+ pretty k)
    with ("node-other" +:+ ("-sub-" +:+ pretty k)).
  by intros Heq%append_inj_l.
Qed.

Lemma root_not_node (x : string) : "root" ≠ "node-" +:+ x.
Proof. change ("node-" +:+ x) with (String "n" ("ode-" +:+ x)). discriminate. Qed.

Lemma NoDup_fmap_elem_inj {A B : Type} (g : A → B) (l : list A) (x y : A) :
  NoDup (g <$> l) → x ∈ l → y ∈ l → g x = g y → x = y.
Proof.
  intros Hnd (i & Hi)%list_elem_of_lookup (j & Hj)%list_elem_of_lookup Hg.
  assert (i = j) as ->; [|congruence].
  eapply NoDup_lookup; [exact Hnd| |].
  - by rewrite list_lookup_fmap, Hi.
  - by rewrite list_lookup_fmap, Hj, Hg.
Qed.

Section unique_ids.
Context {U : Type} `{!UsedSet U}.

Lemma children_shape (text : string) (i : nat) (n : Node) :
  let sentences := split_sentences text in
  let main_topics := select_main_topics medical_keywords sentences in
  mm_children (generate_mindmap_data U text) !! i = Some n →
  node_shape (length main_topics) i n.
Proof.
  intros sentences main_topics. unfold generate_mindmap_data.
  fold sentences main_topics.
  rewrite build_mindmap_children by apply select_main_topics_subseteq.
  destruct (topic_nodes_spec (U := U) sentences main_topics) as [Hlen Hnodes].
  intros Hi. destruct (decide (i < length main_topics)) as [Hlt|Hge].
  - left. rewrite lookup_app_l in Hi by lia.
    destruct (lookup_lt_is_Some_2 main_topics i Hlt) as [t Ht].
    destruct (Hnodes i t Ht) as (n' & Hn' & Hid & _ & _ & Hids & _).
    assert (n' = n) as -> by congruence. done.
  - right. rewrite lookup_app_r in Hi by lia. rewrite Hlen in Hi.
    set (remaining := filter _ sentences) in Hi.
    destruct (decide (remaining = [])) as [Hnil|Hne].
    { by rewrite Hnil in Hi. }
    rewrite other_details_nonempty in Hi by done.
    destruct (i - length main_topics) as [|k] eqn:Hk; [|done].
    injection Hi as <-. split_and!; [lia|done|].
    cbn [node_children].
    rewrite fmap_imap, length_imap, <- (imap_seq_0 remaining other_sub_id).
    by apply imap_ext.
Qed.

Lemma node_shape_owner (t i : nat) (n : Node) (y : string) :
  node_shape t i n →
  y ∈ node_id n :: (leaf_id <$> node_children n) →
  id_owner y = id_owner (node_id n) ∧ ∃ x, y = "node-" +:+ x.
Proof.
  intros [(_ & Hid & Hids)|(_ & Hid & Hids)] [->|Hy]%elem_of_cons.
  - split; [done|]. rewrite Hid. by eexists.
  - rewrite Hids in Hy. apply list_elem_of_fmap in Hy as (j & -> & _).
    rewrite Hid, id_owner_sub, id_owner_topic. split; [done|by eexists].
  - split; [done|]. rewrite Hid. by exists "other".
  - rewrite Hids in Hy. apply list_elem_of_fmap in Hy as (j & -> & _).
    rewrite Hid. split; [done|]. by eexists.
Qed.

Lemma node_shape_NoDup (t i : nat) (n : Node) :
  node_shape t i n → NoDup (node_id n :: (leaf_id <$> node_children n)).
Proof.
  intros [(_ & Hid & Hids)|(_ & Hid & Hids)]; rewrite Hid, Hids;
    apply NoDup_cons; split.
  - intros (j & Hj & _)%list_elem_of_fmap. by apply topic_id_not_sub in Hj.
  - apply NoDup_fmap_2_strong; [|apply NoDup_seq].
    intros j j' _ _. apply sub_id_inj.
  - intros (j & Hj & _)%list_elem_of_fmap.
    by apply other_id_not_other_sub in Hj.
  - apply NoDup_fmap_2; [apply _|apply NoDup_seq].
Qed.

Lemma node_shape_id_inj (t i j : nat) (n n' : Node) :
  node_shape t i n → node_shape t j n' →
  id_owner (node_id n) = id_owner (node_id n') → i = j.
Proof.
  intros [(Hi & Hid & _)|(Hi & Hid & _)] [(Hj & Hid' & _)|(Hj & Hid' & _)];
    rewrite Hid, Hid', ?id_owner_topic.
  - by intros ?%(inj pretty).
  - intros Heq. by destruct (pretty_nat_digits i) as [_ []].
  - intros Heq. by destruct (pretty_nat_digits j) as [_ []].
  - intros _. by subst.
Qed.

(** X4. All ids of the tree are pairwise distinct: the root's, those of the
    topic nodes and of their sub-nodes, [node-other] and its leaves. *)
Theorem ids_unique (text : string) :
  NoDup (all_ids (generate_mindmap_data U text)).
Proof.
  unfold all_ids.
  set (m := generate_mindmap_data U text).
  set (t := length (select_main_topics medical_keywords
                      (split_sentences text))).
  assert (∀ i n, mm_children m !! i = Some n → node_shape t i n) as Hshape.
  { intros i n. apply children_shape. }
  assert (mm_id m = "root") as ->.
  { unfold m, generate_mindmap_data, build_mindmap.
    by destruct (topic_loop _ _ _ _ _). }
  apply NoDup_cons. split.
  - intros (n & Hy & (i & Hn)%list_elem_of_lookup)%list_elem_of_bind.
    destruct (node_shape_owner t i n "root" (Hshape i n Hn) Hy)
      as [_ [x Hx]].
    by apply root_not_node in Hx.
  - apply NoDup_bind.
    + intros n1 n2 y (i & H1)%list_elem_of_lookup
        (j & H2)%list_elem_of_lookup Hy1 Hy2.
      destruct (node_shape_owner t i n1 y (Hshape i n1 H1) Hy1) as [Ho1 _].
      destruct (node_shape_owner t j n2 y (Hshape j n2 H2) Hy2) as [Ho2 _].
      assert (i = j) as ->; [|congruence].
      eapply node_shape_id_inj; [by apply Hshape..|congruence].
    + intros n (i & Hn)%list_elem_of_lookup.
      eapply node_shape_NoDup. by apply Hshape.
    + apply NoDup_alt. intros i j n Hi Hj.
      eapply node_shape_id_inj; [by apply Hshape..|done].
Qed.

End unique_ids.

Section endpoint_failures.
Context {U : Type} `{!UsedSet U}.
Variable save_error : string → option string.
Variable read_text : string → result string.
Variable summarizer : string → result string.

(** Once [request.files] is obtained, the only exception that leaves the
    function is one raised by [file.save]. *)
Lemma handle_files_unhandled_iff (document : option string) (e : string) :
  (handle_files U save_error read_text summarizer document).2
  = Raise e ↔
  ∃ filename, document = Some filename ∧
              allowed_file filename = Some true ∧
              save_error (os_path_join UPLOAD_FOLDER filename) = Some e.
Proof.
  split.
  - destruct document as [filename|]; [|done].
    destruct (decide (filename = "")) as [->|Hne]; [done|].
    destruct (contains "." filename) eqn:Hdot;
      [|by rewrite handler_without_extension by done].
    destruct (last_dot_split filename Hdot) as (base & ext & -> & Hext).
    rewrite handler_with_extension by done.
    destruct (bool_decide (lower ext ∈ ALLOWED_EXTENSIONS)) eqn:Hin; [|done].
    destruct (save_error _) as [e'|] eqn:Hsave; [|done].
    intros [= ->]. eexists. split_and!; [done| |done].
    by rewrite allowed_file_app, Hin by done.
  - intros (filename & -> & Hok & Hsave).
    assert (contains "." filename = true) as Hdot.
    { unfold allowed_file in Hok. by destruct (contains "." filename). }
    destruct (last_dot_split filename Hdot) as (base & ext & -> & Hext).
    rewrite handler_with_extension by done.
    rewrite allowed_file_app in Hok by done. injection Hok as ->.
    by rewrite Hsave.
Qed.

End endpoint_failures.

(** ** Joining the chunk summaries *)

Lemma ends_with_break_cons (c : ascii) (s : string) :
  s ≠ "" → ends_with_break (String c s) = ends_with_break s.
Proof. by destruct s. Qed.

Lemma spec_break_unfold (c : ascii) (s : string) :
  spec_break (String c s)
  = match spec_break s with
    | [] => [String c ""]
    | p :: ps =>
        if is_break_punct c && starts_with_space s
        then String c "" :: lstrip p :: ps
        else String c p :: ps
    end.
Proof. reflexivity. Qed.

Lemma spec_break_single (c : ascii) : spec_break (String c "") = [String c ""].
Proof. simpl. by rewrite andb_false_r. Qed.

Lemma spec_break_app_space (a b : string) :
  ends_with_break a = true →
  spec_break (a +:+ " " +:+ b) = spec_break a ++ spec_break (lstrip b).
Proof.
  induction a as [|c a IH]; [done|]. intros Ha.
  rewrite append_cons. destruct a as [|d a].
  - simpl in Ha. change ("" +:+ " " +:+ b) with (String " " b).
    rewrite spec_break_unfold, spec_break_single.
    pose proof (spec_break_lstrip (String " " b)) as Hl.
    destruct (spec_break_cons (String " " b)) as (q & qs & Hq).
    rewrite Hq in Hl |- *. cbn [lstrip_head] in Hl.
    change (lstrip (String " " b)) with (lstrip b) in Hl.
    rewrite Ha. cbn [starts_with_space].
    change (is_space " ") with true. cbn [andb]. by rewrite Hl.
  - rewrite ends_with_break_cons in Ha by done. specialize (IH Ha).
    rewrite spec_break_unfold, IH, (spec_break_unfold c (String d a)).
    destruct (spec_break_cons (String d a)) as (p & ps & Hp). rewrite Hp.
    rewrite append_cons. cbn [starts_with_space app].
    by destruct (is_break_punct c && is_space d).
Qed.

Lemma sentences_of_lstrip_pieces (b : string) :
  strip <$> filter (λ s, nonempty (strip s) = true) (spec_break (lstrip b))
  = strip <$> filter (λ s, nonempty (strip s) = true) (spec_break b).
Proof.
  rewrite <- spec_break_lstrip.
  destruct (spec_break_cons b) as (p & ps & ->). simpl.
  rewrite !filter_cons.
  assert (strip (lstrip p) = strip p) as Hs.
  { unfold strip. f_equal. apply lstrip_id, lstrip_no_space. }
  rewrite Hs. destruct (decide (nonempty (strip p) = true)); [|done].
  by rewrite !fmap_cons, Hs.
Qed.

Lemma split_sentences_app_space (a b : string) :
  ends_with_break a = true →
  split_sentences (a +:+ " " +:+ b) = split_sentences a ++ split_sentences b.
Proof.
  intros Ha. unfold split_sentences.
  rewrite !re_split_spec, spec_break_app_space by done.
  by rewrite filter_app, fmap_app, sentences_of_lstrip_pieces.
Qed.

(** X10. Joining with one space keeps the sentences apart: when every chunk
    summary ends with [.], [!] or [?], the sentences of the full summary
    are the sentences of the summaries, one summary after the other. *)
Theorem split_sentences_join (summaries : list string) :
  Forall (λ s, ends_with_break s = true) summaries →
  split_sentences (join " " summaries) = summaries ≫= split_sentences.
Proof.
  induction 1 as [|x l Hx Hl IH]; [done|].
  destruct l as [|y l].
  - simpl. by rewrite app_nil_r.
  - change (join " " (x :: y :: l)) with (x +:+ " " +:+ join " " (y :: l)).
    rewrite split_sentences_app_space by done. by rewrite IH.
Qed.

Lemma split_sentences_join_witness :
  split_sentences (join " " ["Patient is stable. No fever!"; "Treatment goes on."])
  = ["Patient is stable. No fever!"; "Treatment goes on."] ≫= split_sentences.
Proof.
  apply split_sentences_join. repeat constructor.
Defined.

(** ** The models on small inputs *)

Example chunks_of_example :
  chunks_of 4 "abcdefghij" = ["abcd"; "efgh"; "ij"] ∧
  chunks_of 4 "abcdefgh" = ["abcd"; "efgh"] ∧
  chunks_of 4 "" = [].
Proof. by vm_compute. Qed.

Example rsplit1_example :
  rsplit1 "." "a.b.c" = ["a.b"; "c"] ∧ rsplit1 "." "abc" = ["abc"] ∧
  rsplit1 "." "abc." = ["abc"; ""] ∧ rsplit1 "." "" = [""].
Proof. by vm_compute. Qed.

Example os_path_join_example :
  os_path_join "uploads" "a.txt" = "uploads/a.txt" ∧
  os_path_join "uploads" "/etc/a.txt" = "/etc/a.txt" ∧
  os_path_join "uploads/" "a.txt" = "uploads/a.txt" ∧
  os_path_join "" "a.txt" = "a.txt".
Proof. by vm_compute. Qed.

Example join_example :
  join " " ["a"; "b"; "c"] = "a b c" ∧ join " " ["a"] = "a" ∧ join " " [] = "".
Proof. by vm_compute. Qed.

(** ** The endpoint on a request *)

Section endpoint_request.
Context {U : Type} `{!UsedSet U}.
Variable save_error : string → option string.
Variable read_text : string → result string.
Variable summarizer : string → result string.

Local Abbreviation endpoint :=
  (upload_and_generate U save_error read_text summarizer).
Local Abbreviation files :=
  (handle_files U save_error read_text summarizer).

Lemma upload_within_limit (request : Request) :
  (content_length request ≤ MAX_CONTENT_LENGTH)%N →
  endpoint request = files (document request).
Proof.
  intros Hle. unfold upload_and_generate.
  by rewrite (proj2 (N.ltb_ge _ _) Hle).
Qed.

Lemma upload_over_limit (request : Request) :
  (MAX_CONTENT_LENGTH < content_length request)%N →
  endpoint request = ([], Raise request_entity_too_large).
Proof.
  intros Hlt. unfold upload_and_generate.
  by rewrite (proj2 (N.ltb_lt _ _) Hlt).
Qed.

(** X18. [file.save] is called exactly for the requests that are within
    the size limit and whose upload has an allowed name, before the
    content is looked at and whatever the answer will be; a request over
    the limit saves nothing. The path is the client's filename behind
    [uploads/]; a filename that starts with [/] is used as it is. *)
Theorem upload_saved_before_checked (request : Request) :
  (endpoint request).1
  = if (MAX_CONTENT_LENGTH <? content_length request)%N then []
    else
      match document request with
      | Some filename =>
          if bool_decide (allowed_file filename = Some true) then
            [if starts_with "/" filename then filename
             else "uploads/" +:+ filename]
          else []
      | None => []
      end.
Proof.
  unfold upload_and_generate.
  destruct (MAX_CONTENT_LENGTH <? content_length request)%N; [done|].
  apply handle_files_saved.
Qed.

(** X19. The endpoint answers 200 exactly for a request within the size
    limit whose upload has txt as its last extension (in any letter case),
    that could be saved and read, whose text has at least 50 characters
    and does not contain "not implemented", and on which the model did not
    fail; the body then carries the tree. *)
Theorem upload_success_iff (request : Request) (r : Response) :
  (endpoint request).2 = Ok r ∧ status r = 200 ↔
  (content_length request ≤ MAX_CONTENT_LENGTH)%N ∧
  ∃ base ext text_content mindmap,
    let filepath := os_path_join UPLOAD_FOLDER (base +:+ "." +:+ ext) in
    document request = Some (base +:+ "." +:+ ext) ∧
    contains "." ext = false ∧ lower ext = "txt" ∧
    save_error filepath = None ∧
    read_text filepath = Ok text_content ∧
    contains "not implemented" text_content = false ∧
    50 ≤ String.length text_content ∧
    generate_mindmap_data_of_text U summarizer text_content = Ok mindmap ∧
    r = mkResponse (MindmapBody "Mindmap generated successfully" mindmap) 200.
Proof.
  destruct (N.le_gt_cases (content_length request) MAX_CONTENT_LENGTH)
    as [Hle|Hgt].
  - rewrite upload_within_limit by done.
    rewrite handle_files_success_iff. split; [by split|by intros [_ ?]].
  - rewrite upload_over_limit by done. split; [by intros [? _]|].
    intros [Hle _]. lia.
Qed.

(** X22. Two exceptions can leave the endpoint, and no other: the
    [RequestEntityTooLarge] of [request.files] for a request over the size
    limit, and, within the limit, what [file.save] raises for an upload
    with an allowed name. The extension indexing never fails, and the
    failures of reading the file and of the model are answered with
    status 500. *)
Theorem upload_unhandled_iff (request : Request) (e : string) :
  (endpoint request).2 = Raise e ↔
  ((MAX_CONTENT_LENGTH < content_length request)%N ∧
   e = request_entity_too_large) ∨
  ((content_length request ≤ MAX_CONTENT_LENGTH)%N ∧
   ∃ filename, document request = Some filename ∧
               allowed_file filename = Some true ∧
               save_error (os_path_join UPLOAD_FOLDER filename) = Some e).
Proof.
  destruct (N.le_gt_cases (content_length request) MAX_CONTENT_LENGTH)
    as [Hle|Hgt].
  - rewrite upload_within_limit by done.
    rewrite handle_files_unhandled_iff. split.
    + intros H. right. by split.
    + intros [[Hgt _]|[_ H]]; [lia|done].
  - rewrite upload_over_limit by done. split.
    + intros [= <-]. by left.
    + intros [[_ ->]|[Hle _]]; [done|lia].
Qed.

(** X20. pdf and docx pass the whitelist but are never processed: such an
    upload, once saved, is answered 400 with the placeholder message of
    its format, whatever the file contains (a request over the size limit
    is refused before that with [RequestEntityTooLarge]). *)
Theorem upload_pdf_docx_refused (request : Request) (base ext : string) :
  document request = Some (base +:+ "." +:+ ext) →
  contains "." ext = false →
  lower ext = "pdf" ∨ lower ext = "docx" →
  save_error (os_path_join UPLOAD_FOLDER (base +:+ "." +:+ ext)) = None →
  (endpoint request).2
  = if (MAX_CONTENT_LENGTH <? content_length request)%N then
      Raise request_entity_too_large
    else
      Ok (mkResponse
            (ErrorBody
               ((if bool_decide (lower ext = "pdf") then "PDF" else "DOCX")
                +:+ " text extraction not implemented in this demo. Please use .txt"))
            400).
Proof.
  intros Hdoc Hext Hfmt Hsave. unfold upload_and_generate.
  destruct (MAX_CONTENT_LENGTH <? content_length request)%N; [done|].
  rewrite Hdoc. by apply handle_files_pdf_docx.
Qed.

(** X21. A text upload that is empty or contains "not implemented"
    anywhere is answered 400 with the whole text of the file as the error
    message (a request over the size limit is refused before that with
    [RequestEntityTooLarge]). *)
Theorem upload_text_echoed (request : Request)
    (base ext text_content : string) :
  document request = Some (base +:+ "." +:+ ext) →
  contains "." ext = false → lower ext = "txt" →
  let filepath := os_path_join UPLOAD_FOLDER (base +:+ "." +:+ ext) in
  save_error filepath = None →
  read_text filepath = Ok text_content →
  text_content = "" ∨ contains "not implemented" text_content = true →
  (endpoint request).2
  = if (MAX_CONTENT_LENGTH <? content_length request)%N then
      Raise request_entity_too_large
    else Ok (mkResponse (ErrorBody text_content) 400).
Proof.
  intros Hdoc Hext Htxt filepath Hsave Hread Hbad. unfold upload_and_generate.
  destruct (MAX_CONTENT_LENGTH <? content_length request)%N; [done|].
  rewrite Hdoc. by apply handle_files_text_echoed.
Qed.

End endpoint_request.

Lemma upload_pdf_docx_refused_witness :
  (upload_and_generate (gset string) (λ _, None) (λ _, Ok "%PDF-1.4") Ok
     (mkRequest 2048 (Some "report.PDF"))).2
  = Ok (mkResponse
          (ErrorBody
             "PDF text extraction not implemented in this demo. Please use .txt")
          400).
Proof.
  apply (upload_pdf_docx_refused (U := gset string) (λ _, None)
           (λ _, Ok "%PDF-1.4") Ok (mkRequest 2048 (Some "report.PDF"))
           "report" "PDF").
  - reflexivity.
  - reflexivity.
  - left. reflexivity.
  - reflexivity.
Defined.

Lemma upload_text_echoed_witness :
  (upload_and_generate (gset string) (λ _, None)
     (λ _, Ok "The feature is not implemented yet, see the notes below.") Ok
     (mkRequest 2048 (Some "notes.txt"))).2
  = Ok (mkResponse
          (ErrorBody "The feature is not implemented yet, see the notes below.")
          400).
Proof.
  apply (upload_text_echoed (U := gset string) (λ _, None)
           (λ _, Ok "The feature is not implemented yet, see the notes below.")
           Ok (mkRequest 2048 (Some "notes.txt")) "notes" "txt").
  - reflexivity.
  - reflexivity.
  - reflexivity.
  - reflexivity.
  - reflexivity.
  - right. reflexivity.
Defined.

Example upload_over_limit_example :
  upload_and_generate (gset string) (λ _, None) (λ _, Ok "text") Ok
    (mkRequest 20000000 (Some "huge.txt"))
  = ([], Raise request_entity_too_large).
Proof. reflexivity. Qed.
